(** * IntelX credential scanner: a shallow embedding of [main.py]

    The script searches an external index for documents mentioning a target,
    fetches every document, extracts [email:password] pairs line by line,
    removes pairs already known and appends the new ones to an output file.

    - Python [str] values are [string]s; a character is a code point below
      256 (the Latin-1 range).  A [set] of strings is a [gset string].
    - The regular expressions are run by a backtracking matcher ([Re]).
    - An exception is a value of [exn]; code that may raise returns a
      [result].  Loops that keep their partial state when an exception
      stops them return the state together with the exception.
    - What the run does to the outside (FILE_VIEW calls, sleeps, logging
      calls) is recorded in order in a [trace]; the output file is an [fs].
    - [json], [csv] and the search service are parameters of the model
      (section [Scanner]); [Json] and [Csv] give concrete ones for the
      examples.
    - Command-line parsing, the API key and the date range (lines 27-90)
      are left out; the pipeline starts from the answers of the search. *)

From Stdlib Require Import Ascii String QArith DecimalString.
From stdpp Require Import gmap strings list.

Local Open Scope string_scope.
Local Open Scope list_scope.
Local Open Scope nat_scope.
#[local] Set Default Proof Using "Type".
#[local] Set Warnings "-clear-no-such-hyp".

(** ** Characters and strings *)

Module Str.

Definition to_list (s : string) : list ascii := list_ascii_of_string s.
Definition of_list (l : list ascii) : string := string_of_list_ascii l.

Definition code (a : ascii) : N := N_of_ascii a.

(** [str.isspace] and the class [\s] of a [str] pattern, on code points
    below 256: tab to carriage return, the four separators 0x1c-0x1f,
    space, NEL and the no-break space. *)
Definition isspace (a : ascii) : bool :=
  let n := code a in
  ((9 <=? n) && (n <=? 13) || (28 <=? n) && (n <=? 32)
   || (n =? 133) || (n =? 160))%N.

(** [a-zA-Z] *)
Definition isalpha_ascii (a : ascii) : bool :=
  let n := code a in
  ((65 <=? n) && (n <=? 90) || (97 <=? n) && (n <=? 122))%N.

(** Lower-casing as [re.IGNORECASE] compares characters below 256:
    the ASCII capitals and the Latin-1 capitals 0xC0-0xDE except 0xD7. *)
Definition lower (a : ascii) : ascii :=
  let n := code a in
  if ((65 <=? n) && (n <=? 90)
      || (192 <=? n) && (n <=? 222) && negb (n =? 215))%N
  then ascii_of_N (n + 32) else a.

Definition eqb_ci (a b : ascii) : bool := Ascii.eqb (lower a) (lower b).

(** [s.strip()], [s.rstrip(chars)] *)
Fixpoint lstrip_with (p : ascii → bool) (l : list ascii) : list ascii :=
  match l with
  | a :: l' => if p a then lstrip_with p l' else l
  | [] => []
  end.

Definition rstrip_with (p : ascii → bool) (l : list ascii) : list ascii :=
  reverse (lstrip_with p (reverse l)).

Definition strip (s : string) : string :=
  of_list (rstrip_with isspace (lstrip_with isspace (to_list s))).

Definition rstrip_chars (chars : string) (s : string) : string :=
  of_list (rstrip_with (λ a, bool_decide (a ∈ to_list chars)) (to_list s)).

(** [s[i:j]] for [0 <= i <= j] *)
Definition slice (s : string) (i j : nat) : string :=
  of_list (take (j - i) (drop i (to_list s))).

(** [s.split('\n')]: never empty, the last piece is what follows the last
    separator. *)
Fixpoint split_go (sep : ascii) (cur : list ascii) (l : list ascii)
  : list string :=
  match l with
  | [] => [of_list (reverse cur)]
  | a :: l' =>
      if Ascii.eqb a sep then of_list (reverse cur) :: split_go sep [] l'
      else split_go sep (a :: cur) l'
  end.

Definition split (sep : ascii) (s : string) : list string :=
  split_go sep [] (to_list s).

Definition count (a : ascii) (s : string) : nat :=
  length (filter (λ b, b = a) (to_list s)).

Definition has (p : ascii → bool) (s : string) : bool :=
  existsb p (to_list s).

End Str.

(** ** Regular expressions

    The fragment of Python's [re] that the script uses: single-character
    sets, greedy repetition of a set with a lower bound, concatenation,
    capturing groups and the end anchor.  The matcher backtracks as [re]
    does: a repetition first takes as many characters as it can and gives
    them back one at a time; [search] tries the start positions from left
    to right. *)

Module Re.

Inductive regex :=
| Empty
| Set_ (p : ascii → bool)
| Repeat (p : ascii → bool) (lo : nat)
| Cat (r1 r2 : regex)
| Group (g : nat) (r : regex)
| AtEnd.

Abbreviation captures := (gmap nat (nat * nat)).

(** Greedy [p{lo,}] on the rest [s] of the subject, at offset [pos]. *)
Fixpoint repeat_greedy {R} (p : ascii → bool) (lo : nat) (s : list ascii)
    (pos : nat) (k : list ascii → nat → option R) : option R :=
  let stop := match lo with O => k s pos | S _ => None end in
  match s with
  | a :: s' =>
      if p a then
        match repeat_greedy p (pred lo) s' (S pos) k with
        | Some r => Some r
        | None => stop
        end
      else stop
  | [] => stop
  end.

(** [$] without [re.MULTILINE]: the end of the subject, or just before a
    newline that ends it. *)
Definition at_end (s : list ascii) : bool :=
  match s with
  | [] => true
  | [a] => Ascii.eqb a "010"
  | _ => false
  end.

Fixpoint run {R} (r : regex) (s : list ascii) (pos : nat) (c : captures)
    (k : list ascii → nat → captures → option R) : option R :=
  match r with
  | Empty => k s pos c
  | Set_ p =>
      match s with
      | a :: s' => if p a then k s' (S pos) c else None
      | [] => None
      end
  | Repeat p lo => repeat_greedy p lo s pos (λ s' pos', k s' pos' c)
  | Cat r1 r2 => run r1 s pos c (λ s' pos' c', run r2 s' pos' c' k)
  | Group g r1 =>
      run r1 s pos c (λ s' pos' c', k s' pos' (<[g := (pos, pos')]> c'))
  | AtEnd => if at_end s then k s pos c else None
  end.

(** A match object: the subject, the span of the whole match and the
    spans of the groups. *)
Record match_ := {
  subject : string;
  span : nat * nat;
  groups : captures;
}.

Fixpoint search_from (r : regex) (subj : string) (s : list ascii)
    (pos : nat) : option match_ :=
  match run r s pos ∅ (λ _ e c, Some (e, c)) with
  | Some (e, c) => Some {| subject := subj; span := (pos, e); groups := c |}
  | None =>
      match s with
      | [] => None
      | _ :: s' => search_from r subj s' (S pos)
      end
  end.

(** [re.search] *)
Definition search (r : regex) (subj : string) : option match_ :=
  search_from r subj (Str.to_list subj) 0.

(** [m.start()], [m.group(g)].  Every group of the patterns of the script
    takes part in every match; for one that does not, Python gives [None],
    here the empty string. *)
Definition start (m : match_) : nat := fst (span m).

Definition group (g : nat) (m : match_) : string :=
  match g with
  | O => Str.slice (subject m) (fst (span m)) (snd (span m))
  | _ =>
      match groups m !! g with
      | Some (i, j) => Str.slice (subject m) i j
      | None => ""
      end
  end.

(** What a regular expression accepts: the word [w] it consumes, in front
    of the rest [rest] of the subject. *)
Fixpoint accepts (r : regex) (w rest : list ascii) : Prop :=
  match r with
  | Empty => w = []
  | Set_ p => ∃ a, w = [a] ∧ p a = true
  | Repeat p lo => Forall (λ a, p a = true) w ∧ lo ≤ length w
  | Cat r1 r2 =>
      ∃ w1 w2,
        w = w1 ++ w2 ∧ accepts r1 w1 (w2 ++ rest) ∧ accepts r2 w2 rest
  | Group _ r1 => accepts r1 w rest
  | AtEnd => w = [] ∧ at_end rest = true
  end.

Fixpoint no_groups (r : regex) : Prop :=
  match r with
  | Cat r1 r2 => no_groups r1 ∧ no_groups r2
  | Group _ _ => False
  | _ => True
  end.

(** [re.escape(t)] compiled with [re.IGNORECASE]: the characters of [t],
    each taken literally and compared without case. *)
Definition escaped_ci (t : string) : regex :=
  foldr (λ a r, Cat (Set_ (Str.eqb_ci a)) r) Empty (Str.to_list t).

End Re.

(** ** The credential pattern (main.py, line 19)

    [([^/:\s]+@[^/:\s]+\.[a-zA-Z]{2,}):(.+)$] *)

Definition is_lit (c a : ascii) : bool := Ascii.eqb a c.

(** [[^/:\s]] *)
Definition not_sep (a : ascii) : bool :=
  negb (is_lit "/" a || is_lit ":" a || Str.isspace a).

(** The separators that [[^/:\s]] leaves out. *)
Definition is_sep (a : ascii) : bool :=
  is_lit ":" a || is_lit "/" a || Str.isspace a.

(** [.] without [re.DOTALL] *)
Definition any_char (a : ascii) : bool := negb (is_lit "010" a).

Definition EMAIL_PART : Re.regex :=
  Re.Cat (Re.Repeat not_sep 1)
    (Re.Cat (Re.Set_ (is_lit "@"))
       (Re.Cat (Re.Repeat not_sep 1)
          (Re.Cat (Re.Set_ (is_lit "."))
             (Re.Repeat Str.isalpha_ascii 2)))).

Definition CRED_PATTERN : Re.regex :=
  Re.Cat (Re.Group 1 EMAIL_PART)
    (Re.Cat (Re.Set_ (is_lit ":"))
       (Re.Cat (Re.Group 2 (Re.Repeat any_char 1)) Re.AtEnd)).

Definition MAX_RETRIES : nat := 3.
Definition RETRY_DELAY : Z := 2.
Definition REQUEST_DELAY : Q := 1 # 2.

(** ** Exceptions and results *)

Inductive exn :=
| JSONDecodeError
| FileNotFoundError
| StopIteration
| PermissionError
| KeyError (key : string)
| TypeError
| AttributeError
| CsvError
| ApiError (code : Z).

Global Instance exn_eq_dec : EqDecision exn.
Proof. solve_decision. Defined.

Inductive result (A : Type) :=
| Ok (a : A)
| Raise (e : exn).
Arguments Ok {A} a.
Arguments Raise {A} e.

Global Instance result_bind : MBind result := λ A B f r,
  match r with
  | Ok a => f a
  | Raise e => Raise e
  end.

(** ** Python values read from and written to a JSON or CSV file *)

#[warnings="-register-all"]
Inductive pyval :=
| PNone
| PBool (b : bool)
| PInt (z : Z)
| PStr (s : string)
| PList (l : list pyval)
| PDict (d : list (string * pyval)).

(** [d.get(key, default)] *)
Fixpoint dict_get (d : list (string * pyval)) (key : string)
    (default : pyval) : pyval :=
  match d with
  | [] => default
  | (k, v) :: d' => if String.eqb k key then v else dict_get d' key default
  end.

(** [for entry in v]: a list gives its items, a string its characters, a
    dict its keys; nothing else is iterable. *)
Definition py_iter (v : pyval) : result (list pyval) :=
  match v with
  | PList l => Ok l
  | PStr s => Ok (map (λ a, PStr (String a "")) (Str.to_list s))
  | PDict d => Ok (map (λ kv, PStr (fst kv)) d)
  | _ => Raise TypeError
  end.

(** [v + l] for a list [l] *)
Definition py_add_list (v : pyval) (l : list pyval) : result (list pyval) :=
  match v with
  | PList l0 => Ok (l0 ++ l)
  | _ => Raise TypeError
  end.

(** ** Documents, credential records, effects *)

(** A record of a search response (the keys the script reads). *)
Record leak := {
  storageid : option string;
  name : option string;
  type_ : option Z;
  media : option Z;
  bucket : option string;
}.

Record cred := {
  url : string;
  email : string;
  password : string;
  source : string;
  raw : string;
}.

Global Instance cred_eq_dec : EqDecision cred.
Proof. solve_decision. Defined.

(** The dedup key [f"{email}:{password}"] *)
Definition key_of (email password : string) : string :=
  email +:+ ":" +:+ password.

Definition cred_key (c : cred) : string := key_of (email c) (password c).

Definition cred_to_py (c : cred) : pyval :=
  PDict [("url", PStr (url c)); ("email", PStr (email c));
         ("password", PStr (password c)); ("source", PStr (source c));
         ("raw", PStr (raw c))].

Inductive level := DEBUG | INFO | WARNING | ERROR.

Global Instance level_eq_dec : EqDecision level.
Proof. solve_decision. Defined.

(** One constructor per logging call of the script. *)
Inductive message :=
| Searching_bucket (bucket term : string)
| Records_from (n : nat) (bucket term : string)
| Bucket_failed (bucket term : string) (e : exn)
| Found_unique (n : nat)
| Resuming
| Loaded_existing (n : nat)
| Could_not_parse
| Error_loading (e : exn)
| Retrying (attempt max_retries : nat) (e : exn) (delay : Z)
| Processing_leak (i n : nat) (name : string)
| Skipped_no_pattern (line : string)
| Duplicate_skipped (key : string)
| Found (line : string)
| Error_processing (name : string) (e : exn)
| No_new_credentials
| Wrote (n : nat)
| Total_unique (n : nat)
| Cannot_write
| Error_during_search (e : exn).

(** What the run does to the outside, in the order it happens. *)
Inductive effect :=
| Call_FILE_VIEW (t m : Z) (sid b : string) (r : result string)
| Sleep (secs : Q)
| Log (lv : level) (msg : message).

Definition trace := list effect.

Definition is_call (e : effect) : bool :=
  match e with Call_FILE_VIEW _ _ _ _ _ => true | _ => false end.

Definition is_warning (e : effect) : bool :=
  match e with Log WARNING _ => true | _ => false end.

Definition sleeps (tr : trace) : list Q :=
  omap (λ e, match e with Sleep d => Some d | _ => None end) tr.

Definition total_sleep (tr : trace) : Q := foldr Qplus 0%Q (sleeps tr).

(** ** The output file *)

Inductive format := Txt | Json | Csv.

(** The destination: its text when it exists, and the exception that
    opening it for reading or for writing raises, if any. *)
Record fs := {
  file : option string;
  read_error : option exn;
  write_error : option exn;
}.

Definition exists_ (f : fs) : bool := bool_decide (is_Some (file f)).

Definition getsize (f : fs) : nat :=
  match file f with Some s => String.length s | None => 0 end.

Definition open_r (f : fs) : result string :=
  match read_error f, file f with
  | Some e, _ => Raise e
  | None, Some s => Ok s
  | None, None => Raise FileNotFoundError
  end.

(** [open(path, 'w')] followed by one write of [s] *)
Definition write_w (f : fs) (s : string) : result fs :=
  match write_error f with
  | Some e => Raise e
  | None => Ok {| file := Some s; read_error := read_error f;
                 write_error := write_error f |}
  end.

(** [open(path, 'a')] followed by one write of [s] *)
Definition write_a (f : fs) (s : string) : result fs :=
  write_w f (default "" (file f) +:+ s).

(** Lines of a file opened in text mode: ["\n"], ["\r"] and ["\r\n"] all
    end a line.  The terminators are left out (the script strips every
    line it reads). *)
Fixpoint text_lines_go (cur : list ascii) (l : list ascii) : list string :=
  match l with
  | [] => match cur with [] => [] | _ => [Str.of_list (reverse cur)] end
  | a :: l' =>
      if Ascii.eqb a "010" then Str.of_list (reverse cur) :: text_lines_go [] l'
      else if Ascii.eqb a "013" then
        Str.of_list (reverse cur) ::
          match l' with
          | b :: l'' => if Ascii.eqb b "010" then text_lines_go [] l''
                        else text_lines_go [] l'
          | [] => []
          end
      else text_lines_go (a :: cur) l'
  end.

Definition text_lines (s : string) : list string :=
  text_lines_go [] (Str.to_list s).

(** ** Result Aggregator (main.py, lines 108-131)

    [responses] holds, in the order of the two nested loops, what each
    [ix.search(term, buckets=[bucket], ...).get('records', [])] gave: the
    records, or the exception it raised. *)

Record agg_state := {
  all_results : list leak;
  seen_ids : gset string;
  agg_log : trace;
}.

Definition agg_init : agg_state :=
  {| all_results := []; seen_ids := ∅; agg_log := [] |}.

(** Truth value of [r.get('storageid')]: [None] and the empty string are
    false. *)
Definition truthy_sid (r : leak) : option string :=
  match storageid r with
  | Some sid => if decide (sid = "") then None else Some sid
  | None => None
  end.

Definition add_record (st : agg_state) (r : leak) : agg_state :=
  match truthy_sid r with
  | Some sid =>
      if decide (sid ∈ seen_ids st) then st
      else {| all_results := all_results st ++ [r];
              seen_ids := {[sid]} ∪ seen_ids st;
              agg_log := agg_log st |}
  | None => st
  end.

Definition agg_say (st : agg_state) (lv : level) (m : message) : agg_state :=
  {| all_results := all_results st; seen_ids := seen_ids st;
     agg_log := agg_log st ++ [Log lv m] |}.

Definition query := (string * string * result (list leak))%type.

Definition query_step (st : agg_state) (q : query) : agg_state :=
  let '(term, bucket, response) := q in
  let st := agg_say st DEBUG (Searching_bucket bucket term) in
  match response with
  | Ok records =>
      agg_say (foldl add_record st records)
        DEBUG (Records_from (length records) bucket term)
  | Raise e => agg_say st WARNING (Bucket_failed bucket term e)
  end.

Definition aggregate (responses : list query) : agg_state :=
  let st := foldl query_step agg_init responses in
  agg_say st INFO (Found_unique (length (all_results st))).

Definition BUCKETS : list string :=
  ["leaks.private"; "leaks.public"; "leaks.private.li"; "pastes"].

Definition startswith (p s : string) : bool := String.prefix p s.

Definition search_terms (target : string) (email_flag : bool) : list string :=
  if email_flag
  then [target; if startswith "@" target then target else "@" +:+ target]
  else [target].

(** The queries of one run, given what the search service answers. *)
Definition responses_of (ix_search : string → string → result (list leak))
    (target : string) (email_flag : bool) : list query :=
  term ← search_terms target email_flag;
  bucket ← BUCKETS;
  [(term, bucket, ix_search term bucket)].

(** ** The pipeline after the search (main.py, lines 136-284) *)

Record state := {
  seen : gset string;
  new_creds : list cred;
  log : trace;
}.

Definition say (st : state) (lv : level) (m : message) : state :=
  {| seen := seen st; new_creds := new_creds st;
     log := log st ++ [Log lv m] |}.

Definition with_log (st : state) (tr : trace) : state :=
  {| seen := seen st; new_creds := new_creds st; log := tr |}.

Definition add_seen (st : state) (key : string) : state :=
  {| seen := {[key]} ∪ seen st; new_creds := new_creds st; log := log st |}.

Section Scanner.

(** The libraries and the service the script calls.  [json_load] and
    [csv_DictReader] read the text of a file, [json_dump] (with
    [indent=2]) and [csv_writerow] give the text they write;
    [format_value] is [str()] of a value that is not a string.  The reader
    of a CSV file yields rows and may stop with an exception.
    [FILE_VIEW] answers a call from everything that happened before. *)
Variable json_load : string → result pyval.
Variable json_dump : pyval → string.
Variable csv_DictReader : string → list (list (string * pyval)) * option exn.
Variable csv_writerow : list string → string.
Variable format_value : pyval → string.
Variable FILE_VIEW : trace → Z → Z → string → string → result string.

(** [f"{v}"] *)
Definition fmt (v : pyval) : string :=
  match v with
  | PStr s => s
  | _ => format_value v
  end.

(** *** Resume: load previously saved credentials (lines 143-172) *)

(** [entry.get(...)] needs a dict. *)
Definition entry_key (entry : pyval) : result string :=
  match entry with
  | PDict d =>
      Ok (key_of (fmt (dict_get d "email" (PStr "")))
            (fmt (dict_get d "password" (PStr ""))))
  | _ => Raise AttributeError
  end.

(** The loop of lines 151-153; the keys added before an exception stay. *)
Fixpoint load_entries (entries : list pyval) (seen : gset string)
  : gset string * option exn :=
  match entries with
  | [] => (seen, None)
  | entry :: rest =>
      match entry_key entry with
      | Ok cred_key => load_entries rest ({[cred_key]} ∪ seen)
      | Raise e => (seen, Some e)
      end
  end.

Definition row_key (row : list (string * pyval)) : string :=
  key_of (fmt (dict_get row "email" (PStr "")))
    (fmt (dict_get row "password" (PStr ""))).

Definition load_line (seen : gset string) (line : string) : gset string :=
  let line := Str.strip line in
  if decide (line = "") then seen
  else
    let cred_key :=
      match Re.search CRED_PATTERN line with
      | Some cred_match => Re.group 0 cred_match
      | None => line
      end in
    {[cred_key]} ∪ seen.

(** The body of the [try] of lines 147-167. *)
Definition load_body (fmt_ : format) (f : fs) : gset string * option exn :=
  match fmt_ with
  | Json =>
      match open_r f ≫= json_load with
      | Raise e => (∅, Some e)
      | Ok existing =>
          match py_iter existing with
          | Raise e => (∅, Some e)
          | Ok entries => load_entries entries ∅
          end
      end
  | Csv =>
      match open_r f with
      | Raise e => (∅, Some e)
      | Ok text =>
          let '(rows, err) := csv_DictReader text in
          (foldl (λ seen row, {[row_key row]} ∪ seen) ∅ rows, err)
      end
  | Txt =>
      match open_r f with
      | Raise e => (∅, Some e)
      | Ok text => (foldl load_line ∅ (text_lines text), None)
      end
  end.

Definition resume_load (fmt_ : format) (f : fs) : state :=
  let st0 := {| seen := ∅; new_creds := []; log := [] |} in
  if exists_ f then
    let st := say st0 INFO Resuming in
    match load_body fmt_ f with
    | (s, None) =>
        say {| seen := s; new_creds := []; log := log st |}
          INFO (Loaded_existing (size s))
    | (s, Some e) =>
        let st := {| seen := s; new_creds := []; log := log st |} in
        if decide (e = JSONDecodeError ∨ e = FileNotFoundError
                   ∨ e = StopIteration)
        then say st WARNING Could_not_parse
        else say st WARNING (Error_loading e)
    end
  else st0.

(** *** FILE_VIEW with retries (lines 176-189) *)

(** [leak[key]] *)
Definition item {A} (field : option A) (key : string) : result A :=
  match field with
  | Some v => Ok v
  | None => Raise (KeyError key)
  end.

(** One evaluation of the body of the [try] of lines 181-182: the four
    subscripts, then the call. *)
Definition attempt_FILE_VIEW (lk : leak) (tr : trace)
  : result string * trace :=
  match (t ← item (type_ lk) "type";
         m ← item (media lk) "media";
         sid ← item (storageid lk) "storageid";
         b ← item (bucket lk) "bucket";
         Ok (t, m, sid, b)) with
  | Ok (t, m, sid, b) =>
      let r := FILE_VIEW tr t m sid b in
      (r, tr ++ [Call_FILE_VIEW t m sid b r])
  | Raise e => (Raise e, tr)
  end.

(** The iterations of [for attempt in range(1, max_retries + 1)] still to
    run: [remaining] of them, the next one numbered
    [max_retries + 1 - remaining]. *)
Fixpoint retry_loop (lk : leak) (max_retries remaining : nat) (delay : Z)
    (tr : trace) : result string * trace :=
  match remaining with
  | O => (Ok "", tr)
  | S remaining' =>
      let attempt := max_retries - remaining' in
      match attempt_FILE_VIEW lk tr with
      | (Ok contents, tr) => (Ok contents, tr)
      | (Raise e, tr) =>
          if decide (attempt = max_retries) then (Raise e, tr)
          else
            retry_loop lk max_retries remaining' (delay * 2)
              (tr ++ [Log WARNING (Retrying attempt max_retries e delay);
                      Sleep (inject_Z delay)])
      end
  end.

Definition file_view_with_retry (lk : leak) (max_retries : nat)
    (tr : trace) : result string * trace :=
  retry_loop lk max_retries max_retries RETRY_DELAY tr.

(** *** Process leaks (lines 193-242) *)

(** [leak.get('name', 'unknown')] *)
Definition name_or_unknown (lk : leak) : string :=
  default "unknown" (name lk).

(** The body of the loop over the lines of a document (lines 202-234). *)
Definition extract_line (target : string) (lk : leak) (st : state)
    (line : string) : state :=
  match Re.search (Re.escaped_ci target) line with
  | None => st
  | Some _ =>
      let line_stripped := Str.strip line in
      match Re.search CRED_PATTERN line_stripped with
      | None => say st DEBUG (Skipped_no_pattern line_stripped)
      | Some cred_match =>
          let email := Re.group 1 cred_match in
          let password := Re.group 2 cred_match in
          let cred_key := key_of email password in
          if decide (cred_key ∈ seen st)
          then say st DEBUG (Duplicate_skipped cred_key)
          else
            let url_part :=
              Str.strip (Str.rstrip_chars ":"
                (Str.slice line_stripped 0 (Re.start cred_match))) in
            say {| seen := {[cred_key]} ∪ seen st;
                   new_creds := new_creds st ++
                     [{| url := url_part; email := email;
                         password := password;
                         source := name_or_unknown lk;
                         raw := line_stripped |}];
                   log := log st |}
              INFO (Found line_stripped)
      end
  end.

(** The body of the loop over the documents (lines 197-242), for the
    document of index [i] out of [n].  Both handlers end in [continue],
    which passes over the rate-limiting sleep. *)
Definition process_leak (target : string) (n : nat) (st : state) (i : nat)
    (lk : leak) : state :=
  match item (name lk) "name" with
  | Raise e => say st ERROR (Error_processing (name_or_unknown lk) e)
  | Ok nm =>
      let st := say st DEBUG (Processing_leak (i + 1) n nm) in
      match file_view_with_retry lk MAX_RETRIES (log st) with
      | (Raise e, tr) =>
          say (with_log st tr) ERROR (Error_processing (name_or_unknown lk) e)
      | (Ok contents, tr) =>
          let st :=
            foldl (extract_line target lk) (with_log st tr)
              (Str.split "010" contents) in
          if decide (Z.of_nat i < Z.of_nat n - 1)%Z
          then with_log st (log st ++ [Sleep REQUEST_DELAY])
          else st
      end
  end.

Fixpoint process_leaks (target : string) (n : nat) (i : nat)
    (leaks : list leak) (st : state) : state :=
  match leaks with
  | [] => st
  | lk :: rest =>
      process_leaks target n (S i) rest (process_leak target n st i lk)
  end.

(** *** Write output (lines 245-277) *)

(** Lines 250-256: the entries already in the file; a file that is absent
    or is not JSON counts as no entries. *)
Definition existing_entries (f : fs) : result pyval :=
  if exists_ f then
    match open_r f ≫= json_load with
    | Ok v => Ok v
    | Raise e =>
        if decide (e = JSONDecodeError ∨ e = FileNotFoundError)
        then Ok (PList [])
        else Raise e
    end
  else Ok (PList []).

Definition FIELDNAMES : list string := ["url"; "email"; "password"; "source"].

Definition csv_fields (c : cred) : list string :=
  [url c; email c; password c; source c].

Definition concat_str (l : list string) : string := foldr String.append "" l.

(** The [else] branch of line 247. *)
Definition write_output (fmt_ : format) (f : fs) (new : list cred)
  : result fs :=
  match fmt_ with
  | Json =>
      existing ← existing_entries f;
      all_entries ← py_add_list existing (map cred_to_py new);
      write_w f (json_dump (PList all_entries))
  | Csv =>
      let file_exists := exists_ f && bool_decide (0 < getsize f)%nat in
      write_a f
        ((if file_exists then "" else csv_writerow FIELDNAMES)
         +:+ concat_str (map (λ c, csv_writerow (csv_fields c)) new))
  | Txt =>
      write_a f (concat_str (map (λ c, raw c +:+ String "010" "") new))
  end.

(** What a run leaves behind. *)
Record outcome := {
  final_fs : fs;
  exit_status : Z;
  final : state;
}.

(** Lines 245-284. *)
Definition finish (fmt_ : format) (f : fs) (st : state) : outcome :=
  let total st := say st INFO (Total_unique (size (seen st))) in
  match new_creds st with
  | [] =>
      {| final_fs := f; exit_status := 0;
         final := total (say st INFO No_new_credentials) |}
  | _ :: _ =>
      match write_output fmt_ f (new_creds st) with
      | Ok f' =>
          {| final_fs := f'; exit_status := 0;
             final := total (say st INFO (Wrote (length (new_creds st)))) |}
      | Raise e =>
          {| final_fs := f; exit_status := 1;
             final := if decide (e = FileNotFoundError)
                      then say st ERROR Cannot_write
                      else say st ERROR (Error_during_search e) |}
      end
  end.

(** The three stages in sequence. *)
Definition extract (target : string) (results : list leak) (st : state)
  : state :=
  process_leaks target (length results) 0 results st.

Definition main (fmt_ : format) (target : string) (results : list leak)
    (f : fs) : outcome :=
  finish fmt_ f (extract target results (resume_load fmt_ f)).

End Scanner.

(** ** A JSON reader and writer for concrete files

    The theorems below hold for every behaviour of the libraries.  To run
    the script on a concrete file, [Json.load] and [Json.dump] read and
    write JSON texts made of [null], booleans, integers, strings, arrays
    and objects, laid out as [json.dump(..., indent=2)] does. *)

Module Json.

Definition hex_digit (n : N) : ascii :=
  ascii_of_N (if (n <? 10)%N then 48 + n else 87 + n).

(** The escapes of [json.dump] with [ensure_ascii]: everything outside
    the printable ASCII characters is escaped. *)
Definition escape (a : ascii) : list ascii :=
  let n := Str.code a in
  if Ascii.eqb a "034" then ["\"; "034"]%char
  else if Ascii.eqb a "\" then ["\"; "\"]%char
  else if (n =? 10)%N then ["\"; "n"]%char
  else if (n =? 13)%N then ["\"; "r"]%char
  else if (n =? 9)%N then ["\"; "t"]%char
  else if (n =? 8)%N then ["\"; "b"]%char
  else if (n =? 12)%N then ["\"; "f"]%char
  else if ((32 <=? n) && (n <=? 126))%N then [a]
  else ["\"; "u"; "0"; "0"; hex_digit (n / 16); hex_digit (n mod 16)]%char.

Definition quote (s : string) : string :=
  Str.of_list ("034" :: (Str.to_list s ≫= escape) ++ ["034"])%char.

Definition decimal (z : Z) : string :=
  DecimalString.NilZero.string_of_int (Z.to_int z).

Fixpoint indent (n : nat) : string :=
  match n with O => "" | S n' => "  " +:+ indent n' end.

Definition newline : string := String "010" "".

(** [open +:+ items joined by ",\n" +:+ close], one level deeper. *)
Definition block (opening closing : string) (lvl : nat)
    (items : list string) : string :=
  match items with
  | [] => opening +:+ closing
  | i :: rest =>
      opening +:+ newline +:+ indent (S lvl) +:+ i
      +:+ concat_str
            (map (λ j, "," +:+ newline +:+ indent (S lvl) +:+ j) rest)
      +:+ newline +:+ indent lvl +:+ closing
  end.

Fixpoint dump_at (lvl : nat) (v : pyval) : string :=
  match v with
  | PNone => "null"
  | PBool true => "true"
  | PBool false => "false"
  | PInt z => decimal z
  | PStr s => quote s
  | PList l => block "[" "]" lvl (map (dump_at (S lvl)) l)
  | PDict d =>
      block "{" "}" lvl
        (map (λ kv, quote (fst kv) +:+ ": " +:+ dump_at (S lvl) (snd kv)) d)
  end.

Definition dump (v : pyval) : string := dump_at 0 v.

(** Reading. *)

Definition is_ws (a : ascii) : bool :=
  let n := Str.code a in
  ((n =? 32) || (n =? 9) || (n =? 10) || (n =? 13))%N.

Definition is_digit (a : ascii) : bool :=
  let n := Str.code a in ((48 <=? n) && (n <=? 57))%N.

Definition hex_value (a : ascii) : option N :=
  let n := Str.code a in
  if ((48 <=? n) && (n <=? 57))%N then Some (n - 48)%N
  else if ((97 <=? n) && (n <=? 102))%N then Some (n - 87)%N
  else if ((65 <=? n) && (n <=? 70))%N then Some (n - 55)%N
  else None.

Fixpoint strip_prefix (p l : list ascii) : option (list ascii) :=
  match p, l with
  | [], _ => Some l
  | a :: p', b :: l' => if Ascii.eqb a b then strip_prefix p' l' else None
  | _ :: _, [] => None
  end.

(** The characters of a string after its opening quote. *)
Fixpoint read_string (acc : list ascii) (l : list ascii)
  : option (string * list ascii) :=
  match l with
  | [] => None
  | a :: l' =>
      if Ascii.eqb a "034" then Some (Str.of_list (reverse acc), l')
      else if Ascii.eqb a "\" then
        match l' with
        | [] => None
        | b :: l'' =>
            if Ascii.eqb b "u" then
              match l'' with
              | h1 :: h2 :: h3 :: h4 :: l3 =>
                  match hex_value h1, hex_value h2, hex_value h3,
                        hex_value h4 with
                  | Some 0%N, Some 0%N, Some x, Some y =>
                      read_string (ascii_of_N (16 * x + y) :: acc) l3
                  | _, _, _, _ => None
                  end
              | _ => None
              end
            else
              let plain c := read_string (c :: acc) l'' in
              if Ascii.eqb b "n" then plain "010"%char
              else if Ascii.eqb b "r" then plain "013"%char
              else if Ascii.eqb b "t" then plain "009"%char
              else if Ascii.eqb b "b" then plain "008"%char
              else if Ascii.eqb b "f" then plain "012"%char
              else if Ascii.eqb b "034" || Ascii.eqb b "\" || Ascii.eqb b "/"
              then plain b
              else None
        end
      else if (Str.code a <? 32)%N then None
      else read_string (a :: acc) l'
  end.

Fixpoint span_digits (acc l : list ascii) : list ascii * list ascii :=
  match l with
  | a :: l' =>
      if is_digit a then span_digits (a :: acc) l' else (reverse acc, l)
  | [] => (reverse acc, [])
  end.

Definition digits_value (ds : list ascii) : Z :=
  foldl (λ z a, 10 * z + Z.of_N (Str.code a - 48))%Z 0%Z ds.

Definition read_int (l : list ascii) : option (pyval * list ascii) :=
  let '(neg, l1) :=
    match l with
    | a :: l' => if Ascii.eqb a "-" then (true, l') else (false, l)
    | [] => (false, l)
    end in
  match span_digits [] l1 with
  | ([], _) => None
  | (d :: ds, rest) =>
      if Ascii.eqb d "0" && bool_decide (ds ≠ []) then None
      else
        match rest with
        | a :: _ =>
            if Ascii.eqb a "." || Ascii.eqb a "e" || Ascii.eqb a "E"
            then None
            else Some (PInt (if neg then - digits_value (d :: ds)
                             else digits_value (d :: ds))%Z, rest)
        | [] => Some (PInt (if neg then - digits_value (d :: ds)
                            else digits_value (d :: ds))%Z, rest)
        end
  end.

Fixpoint skip_ws (l : list ascii) : list ascii :=
  match l with
  | a :: l' => if is_ws a then skip_ws l' else l
  | [] => []
  end.

(** A key read again replaces the value and keeps its place, as in a
    [dict]. *)
Fixpoint dict_set (d : list (string * pyval)) (k : string) (v : pyval)
  : list (string * pyval) :=
  match d with
  | [] => [(k, v)]
  | (k', v') :: d' =>
      if String.eqb k' k then (k, v) :: d' else (k', v') :: dict_set d' k v
  end.

Definition lit (word : string) (v : pyval) (l : list ascii)
  : option (pyval * list ascii) :=
  match strip_prefix (Str.to_list word) l with
  | Some rest => Some (v, rest)
  | None => None
  end.

Fixpoint read_value (fuel : nat) (l : list ascii)
  : option (pyval * list ascii) :=
  match fuel with
  | O => None
  | S fuel =>
      match skip_ws l with
      | [] => None
      | a :: rest =>
          if Ascii.eqb a "[" then
            match skip_ws rest with
            | b :: rest' =>
                if Ascii.eqb b "]" then Some (PList [], rest')
                else
                  match read_items fuel [] rest with
                  | Some (vs, r) => Some (PList vs, r)
                  | None => None
                  end
            | [] => None
            end
          else if Ascii.eqb a "{" then
            match skip_ws rest with
            | b :: rest' =>
                if Ascii.eqb b "}" then Some (PDict [], rest')
                else
                  match read_members fuel [] rest with
                  | Some (d, r) => Some (PDict d, r)
                  | None => None
                  end
            | [] => None
            end
          else if Ascii.eqb a "034" then
            match read_string [] rest with
            | Some (s, r) => Some (PStr s, r)
            | None => None
            end
          else if Ascii.eqb a "n" then lit "null" PNone (a :: rest)
          else if Ascii.eqb a "t" then lit "true" (PBool true) (a :: rest)
          else if Ascii.eqb a "f" then lit "false" (PBool false) (a :: rest)
          else read_int (a :: rest)
      end
  end
with read_items (fuel : nat) (acc : list pyval) (l : list ascii)
  : option (list pyval * list ascii) :=
  match fuel with
  | O => None
  | S fuel =>
      match read_value fuel l with
      | Some (v, r) =>
          match skip_ws r with
          | a :: r' =>
              if Ascii.eqb a "," then read_items fuel (v :: acc) r'
              else if Ascii.eqb a "]" then Some (reverse (v :: acc), r')
              else None
          | [] => None
          end
      | None => None
      end
  end
with read_members (fuel : nat) (acc : list (string * pyval))
    (l : list ascii) : option (list (string * pyval) * list ascii) :=
  match fuel with
  | O => None
  | S fuel =>
      match skip_ws l with
      | q :: l1 =>
          if Ascii.eqb q "034" then
            match read_string [] l1 with
            | Some (k, l2) =>
                match skip_ws l2 with
                | c :: l3 =>
                    if Ascii.eqb c ":" then
                      match read_value fuel l3 with
                      | Some (v, r) =>
                          match skip_ws r with
                          | a :: r' =>
                              if Ascii.eqb a ","
                              then read_members fuel (dict_set acc k v) r'
                              else if Ascii.eqb a "}"
                              then Some (dict_set acc k v, r')
                              else None
                          | [] => None
                          end
                      | None => None
                      end
                    else None
                | [] => None
                end
            | None => None
            end
          else None
      | [] => None
      end
  end.

Definition load (text : string) : result pyval :=
  let l := Str.to_list text in
  match read_value (2 * length l + 2) l with
  | Some (v, rest) =>
      match skip_ws rest with
      | [] => Ok v
      | _ :: _ => Raise JSONDecodeError
      end
  | None => Raise JSONDecodeError
  end.

End Json.


(** ** A CSV reader and writer for concrete files

    [Csv.writerow] quotes as [csv.writer] does by default; [Csv.DictReader]
    reads files that hold no quoted field. *)

Module Csv.

Definition needs_quotes (a : ascii) : bool :=
  Ascii.eqb a "," || Ascii.eqb a "034" || Ascii.eqb a "013"
  || Ascii.eqb a "010".

Definition field (s : string) : string :=
  if Str.has needs_quotes s then
    Str.of_list
      ("034"%char
       :: (Str.to_list s ≫= λ a, if Ascii.eqb a "034" then [a; a] else [a])
       ++ ["034"%char])
  else s.

Fixpoint join (sep : string) (l : list string) : string :=
  match l with
  | [] => ""
  | [s] => s
  | s :: rest => s +:+ sep +:+ join sep rest
  end.

Definition writerow (fields : list string) : string :=
  join "," (map field fields) +:+ String "013" (String "010" "").

(** [zip(fieldnames, row)], a missing value being [None]; values beyond
    the field names are left out (the script never reads them). *)
Fixpoint zip_row (names values : list string) : list (string * pyval) :=
  match names, values with
  | [], _ => []
  | n :: names', [] => (n, PNone) :: zip_row names' []
  | n :: names', v :: values' => (n, PStr v) :: zip_row names' values'
  end.

(** [dict(pairs)]: the last value of a key stays. *)
Definition dict_of (pairs : list (string * pyval)) : list (string * pyval) :=
  foldl (λ d kv, Json.dict_set d (fst kv) (snd kv)) [] pairs.

(** The fields of a line; an empty line is the empty row. *)
Definition row_of (line : string) : list string :=
  if decide (line = "") then [] else Str.split "," line.

(** The first line gives the field names; empty rows are passed over. *)
Definition DictReader (text : string)
  : list (list (string * pyval)) * option exn :=
  match text_lines text with
  | [] => ([], None)
  | header :: rows =>
      (map (λ r, dict_of (zip_row (row_of header) (row_of r)))
         (filter (λ l, l ≠ "") rows), None)
  end.

End Csv.

(** ** Concrete services for the examples *)

(** [str()] of the scalars; a list or a dict is not a field of any record
    of the examples and is shown as its JSON text. *)
Definition str_value (v : pyval) : string :=
  match v with
  | PNone => "None"
  | PBool true => "True"
  | PBool false => "False"
  | PInt z => Json.decimal z
  | PStr s => s
  | _ => Json.dump v
  end.

(** A service that answers every FILE_VIEW call with the same text, and one
    that fails every call. *)
Definition serves (contents : string)
  : trace → Z → Z → string → string → result string :=
  λ _ _ _ _ _, Ok contents.

Definition unavailable
  : trace → Z → Z → string → string → result string :=
  λ _ _ _ _ _, Raise (ApiError 500).

(** A service that answers the document [sid] with [contents] and fails
    every other call. *)
Definition serves_only (sid contents : string)
  : trace → Z → Z → string → string → result string :=
  λ _ _ _ sid' _, if String.eqb sid' sid then Ok contents
                   else Raise (ApiError 500).

Definition doc (sid nm : string) : leak :=
  {| storageid := Some sid; name := Some nm; type_ := Some 0%Z;
     media := Some 24%Z; bucket := Some "leaks.public" |}.

Definition no_file : fs :=
  {| file := None; read_error := None; write_error := None |}.

Definition file_with (text : string) : fs :=
  {| file := Some text; read_error := None; write_error := None |}.

Definition empty_state : state := {| seen := ∅; new_creds := []; log := [] |}.

(** The script with the concrete libraries. *)
Definition run_main
    (FILE_VIEW : trace → Z → Z → string → string → result string)
  : format → string → list leak → fs → outcome :=
  main Json.load Json.dump Csv.DictReader Csv.writerow str_value FILE_VIEW.

(** ** Vocabulary of the statements *)

(** The delays of [k] retries that start at [d] and double each time. *)
Fixpoint backoff (d : Z) (k : nat) : list Z :=
  match k with
  | O => []
  | S k' => d :: backoff (d * 2) k'
  end.

Definition sum_Z (l : list Z) : Z := foldr Z.add 0%Z l.

(** A document record that has every key the script subscripts. *)
Definition complete (lk : leak) : Prop :=
  is_Some (name lk) ∧ is_Some (type_ lk) ∧ is_Some (media lk)
  ∧ is_Some (storageid lk) ∧ is_Some (bucket lk).

(** The records of the queries that succeeded, in the order they were
    received. *)
Definition records_in (responses : list query) : list leak :=
  q ← responses;
  match q with
  | (_, _, Ok records) => records
  | (_, _, Raise _) => []
  end.

(** What holds of the aggregator's state once the records [received] have
    been looked at. *)
Record agg_inv (received : list leak) (st : agg_state) : Prop := {
  inv_nodup : NoDup (map storageid (all_results st));
  inv_truthy :
    Forall (λ r, ∃ sid, storageid r = Some sid ∧ sid ≠ "")
      (all_results st);
  inv_seen :
    ∀ sid,
      sid ∈ seen_ids st ↔ Some sid ∈ map storageid (all_results st);
  inv_order : all_results st `sublist_of` received;
  inv_first :
    ∀ r, r ∈ all_results st →
      ∃ l1 l2, received = l1 ++ r :: l2
               ∧ ∀ r', r' ∈ l1 → storageid r' ≠ storageid r;
  inv_all :
    ∀ r sid, r ∈ received → storageid r = Some sid → sid ≠ "" →
      sid ∈ seen_ids st;
}.

(** What a line of a document named [source] yields when its key is new
    (lines 203-216 and 225-233, without the lookup in [seen]). *)
Definition candidate (target source line : string) : option cred :=
  match Re.search (Re.escaped_ci target) line with
  | None => None
  | Some _ =>
      let line_stripped := Str.strip line in
      match Re.search CRED_PATTERN line_stripped with
      | None => None
      | Some cred_match =>
          Some {| url := Str.strip (Str.rstrip_chars ":"
                    (Str.slice line_stripped 0 (Re.start cred_match)));
                  email := Re.group 1 cred_match;
                  password := Re.group 2 cred_match;
                  source := source;
                  raw := line_stripped |}
      end
  end.

(** The candidates of a run, in the order the run meets them: for every
    document that is fetched, those of its lines. *)
Definition candidates_of_leak
    (FILE_VIEW : trace → Z → Z → string → string → result string)
    (target : string) (n : nat) (st : state) (i : nat) (lk : leak)
  : list cred :=
  match item (name lk) "name" with
  | Raise _ => []
  | Ok nm =>
      match file_view_with_retry FILE_VIEW lk MAX_RETRIES
              (log (say st DEBUG (Processing_leak (i + 1) n nm))) with
      | (Ok contents, _) =>
          omap (candidate target (name_or_unknown lk))
            (Str.split "010" contents)
      | (Raise _, _) => []
      end
  end.

Fixpoint candidates_of_run
    (FILE_VIEW : trace → Z → Z → string → string → result string)
    (target : string) (n i : nat) (leaks : list leak) (st : state)
  : list cred :=
  match leaks with
  | [] => []
  | lk :: rest =>
      candidates_of_leak FILE_VIEW target n st i lk
      ++ candidates_of_run FILE_VIEW target n (S i) rest
           (process_leak FILE_VIEW target n st i lk)
  end.

(** First seen wins: of the candidates [cands], met in that order by a run
    that started with the keys [seen0], the records [new] are retained. *)
Record first_seen_wins (seen0 : gset string) (cands new : list cred)
  : Prop := {
  retained_nodup : NoDup (map cred_key new);
  retained_fresh : ∀ c, c ∈ new → cred_key c ∉ seen0;
  retained_order : new `sublist_of` cands;
  retained_first :
    ∀ l1 c l2, cands = l1 ++ c :: l2 →
      cred_key c ∉ seen0 → cred_key c ∉ map cred_key l1 → c ∈ new;
}.

(** The invariant of the extraction loops, once the candidates [met] have
    been processed. *)
Record dedup_inv (seen0 : gset string) (met : list cred)
    (seen_ : gset string) (new : list cred) : Prop := {
  dedup_wins : first_seen_wins seen0 met new;
  dedup_seen : ∀ k, k ∈ seen_ ↔ k ∈ seen0 ∨ k ∈ map cred_key new;
  dedup_met : ∀ c, c ∈ met → cred_key c ∈ seen_;
}.

(** The JSON document of a list of credential records. *)
Definition records_doc (recs : list cred) : pyval :=
  PList (map cred_to_py recs).

(** ** Records and files of the examples *)

Definition alice : cred :=
  {| url := "https://site.example/login"; email := "alice@corp.example";
     password := "Sup3rSecret!"; source := "a.txt";
     raw := "https://site.example/login:alice@corp.example:Sup3rSecret!" |}.

Definition bob : cred :=
  {| url := ""; email := "bob@corp.example"; password := "pa:ss word";
     source := "b.txt"; raw := "bob@corp.example:pa:ss word" |}.

(** A JSON file whose second entry is not an object: a list that somebody
    edited, or one written by another tool. *)
Definition half_good : string :=
  Json.dump (PList [cred_to_py alice; PInt 5]).


(** ** Vocabulary of the further properties *)

(** The words group 1 of [CRED_PATTERN] accepts: [local@domain.tld], the
    two first parts not empty and free of separators, the last one two or
    more letters. *)
Definition is_email (em : list ascii) : Prop :=
  ∃ local dom tld,
    em = local ++ ["@"%char] ++ dom ++ ["."%char] ++ tld
    ∧ Forall (λ a, not_sep a = true) local ∧ local ≠ []
    ∧ Forall (λ a, not_sep a = true) dom ∧ dom ≠ []
    ∧ Forall (λ a, Str.isalpha_ascii a = true) tld ∧ 2 ≤ length tld.

(** [w] is [t] up to the case of the letters. *)
Definition same_ci (t w : list ascii) : Prop :=
  Forall2 (λ a b, Str.eqb_ci a b = true) t w.


Definition count_calls (tr : list effect) : nat :=
  length (filter (λ ev, is_call ev = true) tr).

Definition count_warnings (tr : list effect) : nat :=
  length (filter (λ ev, is_warning ev = true) tr).

(** The first key of the call of line 181 that a record lacks. *)
Definition missing_key (lk : leak) : option string :=
  match type_ lk, media lk, storageid lk, bucket lk with
  | None, _, _, _ => Some "type"
  | _, None, _, _ => Some "media"
  | _, _, None, _ => Some "storageid"
  | _, _, _, None => Some "bucket"
  | _, _, _, _ => None
  end.

(** [st'] is [st] with more at the end: the log and the new records are
    only appended to, and no key is forgotten. *)
Definition extends (st st' : state) : Prop :=
  log st `prefix_of` log st'
  ∧ new_creds st `prefix_of` new_creds st'
  ∧ seen st ⊆ seen st'.

(** [st'] extends [st] and its log has at most [calls] more FILE_VIEW
    calls. *)
Definition grows (calls : nat) (st st' : state) : Prop :=
  extends st st'
  ∧ ∃ suffix, log st' = log st ++ suffix ∧ count_calls suffix ≤ calls.


(** A record whose fields are what the extractor reads in its [raw] text:
    [raw] is stripped and the email and the password are the two groups of
    the match of [CRED_PATTERN] in it. *)
Definition extracted (c : cred) : Prop :=
  Str.strip (raw c) = raw c
  ∧ ∃ m, Re.search CRED_PATTERN (raw c) = Some m
         ∧ email c = Re.group 1 m ∧ password c = Re.group 2 m.

(** No line feed and no carriage return *)
Definition one_line (s : string) : Prop :=
  Forall (λ a, a ≠ "010"%char ∧ a ≠ "013"%char) (Str.to_list s).

(** The text the txt format holds for a list of records. *)
Definition txt_of (recs : list cred) : string :=
  concat_str (map (λ c, raw c +:+ String "010" "") recs).

(** The row of a record as [csv.DictReader] gives it back. *)
Definition csv_row_of (c : cred) : list (string * pyval) :=
  [("url", PStr (url c)); ("email", PStr (email c));
   ("password", PStr (password c)); ("source", PStr (source c))].

(** The text the csv format holds for a list of records in a new file. *)
Definition csv_of (csv_writerow : list string → string) (recs : list cred)
  : string :=
  csv_writerow FIELDNAMES
  +:+ concat_str (map (λ c, csv_writerow (csv_fields c)) recs).

(** A record without the key [type], and a service that always gives the
    same text. *)
Definition no_type : leak :=
  {| storageid := Some "s1"; name := Some "a.txt"; type_ := None;
     media := Some 24%Z; bucket := Some "leaks.public" |}.

Definition same_answer : Z → Z → string → string → result string :=
  λ _ _ _ _, Ok (raw alice).


(** ** The output path (main.py, lines 40-45) *)

Definition format_name (fmt_ : format) : string :=
  match fmt_ with Txt => "txt" | Json => "json" | Csv => "csv" end.

(** [args.output] after line 45: [output] is the option [-o], absent or
    empty when it is not given. *)
Definition output_path (output : option string) (target : string)
    (fmt_ : format) : string :=
  match output with
  | Some o =>
      if decide (o = "")
      then "out/" +:+ target +:+ "-creds." +:+ format_name fmt_
      else "out/" +:+ o
  | None => "out/" +:+ target +:+ "-creds." +:+ format_name fmt_
  end.
(** * Properties *)

(** ** The regular-expression matcher *)

Module ReFacts.
Import Re.

Lemma repeat_greedy_sound {R} p lo s pos (k : list ascii → nat → option R)
    res :
  repeat_greedy p lo s pos k = Some res →
  ∃ w s', s = w ++ s' ∧ Forall (λ a, p a = true) w ∧ lo ≤ length w
          ∧ k s' (pos + length w) = Some res.
Proof.
  revert lo pos. induction s as [|a s IH]; intros lo pos H; simpl in H.
  - destruct lo; [|done].
    exists [], []. rewrite Nat.add_0_r. repeat split; auto.
  - assert (Hstop : match lo with O => k (a :: s) pos | S _ => None end
                    = Some res →
                    ∃ w s', a :: s = w ++ s' ∧ Forall (λ a, p a = true) w
                            ∧ lo ≤ length w
                            ∧ k s' (pos + length w) = Some res).
    { destruct lo; [|done]. intros Hk.
      exists [], (a :: s). rewrite Nat.add_0_r. repeat split; auto. }
    destruct (p a) eqn:Hp; [|auto].
    destruct (repeat_greedy p (pred lo) s (S pos) k) as [r'|] eqn:Hrec; [|auto].
    injection H as ->.
    apply IH in Hrec as (w & s' & -> & Hall & Hlo & Hk).
    exists (a :: w), s'. simpl. repeat split; auto; [lia|].
    by rewrite <- Nat.add_succ_comm.
Qed.

Lemma run_sound {R} r :
  ∀ s pos c (k : list ascii → nat → captures → option R) res,
    run r s pos c k = Some res →
    ∃ w s' c', s = w ++ s' ∧ accepts r w s'
               ∧ k s' (pos + length w) c' = Some res
               ∧ (no_groups r → c' = c).
Proof.
  induction r as [|p|p lo|r1 IH1 r2 IH2|g r1 IH1|]; intros s pos c k res H;
    simpl in H.
  - exists [], s, c. rewrite Nat.add_0_r. by repeat split.
  - destruct s as [|a s]; [done|]. destruct (p a) eqn:Hp; [|done].
    exists [a], s, c. simpl. rewrite Nat.add_1_r. repeat split; eauto.
  - apply repeat_greedy_sound in H as (w & s' & -> & Hall & Hlo & Hk).
    exists w, s', c. by repeat split.
  - apply IH1 in H as (w1 & s1 & c1 & -> & Hw1 & H & Hc1).
    apply IH2 in H as (w2 & s2 & c2 & -> & Hw2 & H & Hc2).
    exists (w1 ++ w2), s2, c2. rewrite <- app_assoc, length_app, Nat.add_assoc.
    repeat split; auto.
    + by exists w1, w2.
    + intros [??]. rewrite Hc2, Hc1; auto.
  - apply IH1 in H as (w & s' & c' & -> & Hw & H & _).
    exists w, s', (<[g:=(pos, pos + length w)]> c'). by repeat split.
  - destruct (at_end s) eqn:He; [|done].
    exists [], s, c. rewrite Nat.add_0_r. by repeat split.
Qed.

Lemma search_from_sound r subj s pos m :
  search_from r subj s pos = Some m →
  ∃ pre s' e c,
    s = pre ++ s'
    ∧ run r s' (pos + length pre) ∅ (λ _ e c, Some (e, c)) = Some (e, c)
    ∧ m = {| subject := subj; span := (pos + length pre, e); groups := c |}.
Proof.
  revert pos. induction s as [|a s IH]; intros pos H; simpl in H.
  - destruct (run r [] pos ∅ _) as [[e c]|] eqn:Hr; [|done].
    injection H as <-. exists [], [], e, c. simpl. rewrite Nat.add_0_r. done.
  - destruct (run r (a :: s) pos ∅ _) as [[e c]|] eqn:Hr.
    + injection H as <-. exists [], (a :: s), e, c. simpl.
      rewrite Nat.add_0_r. done.
    + apply IH in H as (pre & s' & e & c & -> & Hr' & ->).
      exists (a :: pre), s', e, c. simpl.
      rewrite <- Nat.add_succ_comm in *. done.
Qed.

Lemma to_of_list l : Str.to_list (Str.of_list l) = l.
Proof. apply list_ascii_of_string_of_list_ascii. Qed.

Lemma of_to_list s : Str.of_list (Str.to_list s) = s.
Proof. apply string_of_list_ascii_of_string. Qed.

Lemma slice_middle subj pre w post :
  Str.to_list subj = pre ++ w ++ post →
  Str.slice subj (length pre) (length pre + length w) = Str.of_list w.
Proof.
  intros H. unfold Str.slice. rewrite H.
  rewrite drop_app_length.
  replace (length pre + length w - length pre) with (length w) by lia.
  by rewrite take_app_length.
Qed.

End ReFacts.

(** ** The credential pattern *)

Section CredPattern.
Import Re ReFacts.

Lemma run_Cat {R} r1 r2 s pos c
    (k : list ascii → nat → captures → option R) :
  run (Cat r1 r2) s pos c k
  = run r1 s pos c (λ s' pos' c', run r2 s' pos' c' k).
Proof. done. Qed.

Lemma run_Group {R} g r s pos c
    (k : list ascii → nat → captures → option R) :
  run (Group g r) s pos c k
  = run r s pos c (λ s' pos' c', k s' pos' (<[g := (pos, pos')]> c')).
Proof. done. Qed.

(** The shape of every match of [CRED_PATTERN]: the subject splits into
    what precedes the match, the email, a colon, the password and at most
    a final newline. *)
Lemma CRED_PATTERN_search_inv line m :
  search CRED_PATTERN line = Some m →
  ∃ pre em pw rest,
    Str.to_list line = pre ++ em ++ [":"%char] ++ pw ++ rest
    ∧ accepts EMAIL_PART em (":"%char :: pw ++ rest)
    ∧ Forall (λ a, any_char a = true) pw ∧ 1 ≤ length pw
    ∧ at_end rest = true
    ∧ start m = length pre
    ∧ group 1 m = Str.of_list em
    ∧ group 2 m = Str.of_list pw
    ∧ group 0 m = Str.of_list (em ++ [":"%char] ++ pw).
Proof.
  unfold search. intros H.
  apply search_from_sound in H.
  destruct H as (pre & s' & e & c & Hline & Hrun & Hm). subst m.
  change (0 + length pre) with (length pre) in *.
  unfold CRED_PATTERN in Hrun. rewrite run_Cat, run_Group in Hrun.
  apply run_sound in Hrun as (em & s1 & c1 & -> & Hem & Hrun & Hc1).
  rewrite Hc1 in Hrun by (simpl; tauto). clear Hc1 c1.
  simpl in Hrun.
  destruct s1 as [|a s1]; [done|].
  destruct (is_lit ":" a) eqn:Ha; [|done].
  apply Ascii.eqb_eq in Ha as ->.
  apply repeat_greedy_sound in Hrun as (pw & rest & -> & Hpw & Hlen & Hrun).
  destruct (at_end rest) eqn:Hrest; [|done].
  injection Hrun as <- <-.
  exists pre, em, pw, rest.
  assert (Hl : Str.to_list line = pre ++ em ++ [":"%char] ++ pw ++ rest)
    by done.
  repeat split; auto.
  - unfold group; cbn [groups subject].
    rewrite lookup_insert_ne by done. rewrite lookup_insert_eq.
    eapply slice_middle. exact Hl.
  - unfold group; cbn [groups subject]. rewrite lookup_insert_eq.
    replace (S (length pre + length em))
      with (length (pre ++ em ++ [":"%char]))
      by (rewrite !length_app; simpl; lia).
    replace (S (length pre + length em + length pw))
      with (length (pre ++ em ++ [":"%char]) + length pw)
      by (rewrite !length_app; simpl; lia).
    eapply slice_middle. rewrite Hl. rewrite <- !app_assoc. done.
  - unfold group; cbn [span fst snd subject].
    replace (S (length pre + length em + length pw))
      with (length pre + length (em ++ [":"%char] ++ pw))
      by (rewrite !length_app; simpl; lia).
    eapply slice_middle. rewrite Hl. rewrite <- !app_assoc. done.
Qed.

Lemma alpha_not_sep a : Str.isalpha_ascii a = true → not_sep a = true.
Proof. destruct a as [[] [] [] [] [] [] [] []]; vm_compute; congruence. Qed.

(** The characters of the email part. *)
Lemma EMAIL_PART_chars em rest :
  accepts EMAIL_PART em rest →
  Forall (λ a, not_sep a = true) em ∧ "@"%char ∈ em.
Proof.
  simpl. intros (w1 & r1 & -> & [Hw1 _] & w2 & r2 & -> & (a & -> & Ha)
                 & w3 & r3 & -> & [Hw3 _] & w4 & w5 & -> & (b & -> & Hb)
                 & [Hw5 _]).
  apply Ascii.eqb_eq in Ha as ->. apply Ascii.eqb_eq in Hb as ->.
  split.
  - rewrite !Forall_app. repeat split; auto; try (by repeat constructor).
    eapply Forall_impl; [exact Hw5|]. apply alpha_not_sep.
  - set_solver.
Qed.

Lemma has_false (p : ascii → bool) (l : list ascii) :
  Forall (λ a, p a = false) l → existsb p l = false.
Proof. induction 1 as [|a l Ha _ IH]; simpl; [done|]. by rewrite Ha, IH. Qed.

Lemma count_elem (a : ascii) l :
  a ∈ l → 1 ≤ length (filter (λ b, b = a) l).
Proof.
  intros H. assert (H' : a ∈ filter (λ b, b = a) l)
    by (apply list_elem_of_filter; done).
  destruct (filter (λ b, b = a) l); [by apply elem_of_nil in H'|simpl; lia].
Qed.

(** C3, as the code has it: in every match of [CRED_PATTERN] the email
    (group 1) holds at least one [@] and no colon, slash or whitespace
    character, and the password (group 2) is not empty. *)
Theorem cred_pattern_groups line m :
  search CRED_PATTERN line = Some m →
  1 ≤ Str.count "@" (group 1 m)
  ∧ Str.has is_sep (group 1 m) = false
  ∧ group 2 m ≠ "".
Proof.
  intros H.
  apply CRED_PATTERN_search_inv in H
    as (pre & em & pw & rest & _ & Hem & _ & Hlen & _ & _ & -> & -> & _).
  apply EMAIL_PART_chars in Hem as [Hsep Hat].
  unfold Str.count, Str.has. rewrite to_of_list.
  split; [by apply count_elem|]. split.
  - apply has_false. eapply Forall_impl; [exact Hsep|].
    intros a. unfold not_sep, is_sep.
    destruct (is_lit "/" a), (is_lit ":" a), (Str.isspace a); done.
  - destruct pw; [simpl in Hlen; lia|done].
Qed.

Lemma cred_pattern_groups_witness :
  ∃ m, search CRED_PATTERN "see admin@mail.corp.example:hunter2" = Some m
       ∧ 1 ≤ Str.count "@" (group 1 m)
       ∧ Str.has is_sep (group 1 m) = false
       ∧ group 2 m ≠ "".
Proof.
  eexists. split; [vm_compute; reflexivity|].
  apply (cred_pattern_groups "see admin@mail.corp.example:hunter2").
  vm_compute; reflexivity.
Defined.

(** C3 as stated fails: [[^/:\s]] accepts [@], so the email of
    [a@b@c.com:pw] is [a@b@c.com], with two [@]. *)
Lemma cred_pattern_two_ats :
  ¬ (∀ line m, search CRED_PATTERN line = Some m →
       Str.count "@" (group 1 m) = 1
       ∧ Str.has is_sep (group 1 m) = false
       ∧ group 2 m ≠ "").
Proof.
  intros H.
  destruct (H "a@b@c.com:pw" _ eq_refl) as [Hcount _].
  vm_compute in Hcount. discriminate.
Qed.

End CredPattern.

(** ** The extractor on the scenario of the specification *)

(** C4: on the line [https://site.example/login:user@corp.example:Sup3rSecret!]
    with target [corp.example], the extractor emits exactly one record, with
    url [https://site.example/login], email [user@corp.example] and password
    [Sup3rSecret!]. *)
Theorem extract_line_scenario lk :
  new_creds
    (extract_line "corp.example" lk empty_state
       "https://site.example/login:user@corp.example:Sup3rSecret!")
  = [{| url := "https://site.example/login";
        email := "user@corp.example";
        password := "Sup3rSecret!";
        source := name_or_unknown lk;
        raw := "https://site.example/login:user@corp.example:Sup3rSecret!" |}].
Proof. vm_compute. reflexivity. Qed.

(** ** FILE_VIEW with retries *)

Section Retry.
Variable FILE_VIEW : trace → Z → Z → string → string → result string.

Lemma sleeps_app tr1 tr2 : sleeps (tr1 ++ tr2) = sleeps tr1 ++ sleeps tr2.
Proof. apply omap_app. Qed.

Lemma total_sleep_inject l :
  foldr Qplus 0%Q (map inject_Z l) = inject_Z (sum_Z l).
Proof.
  induction l as [|z l IH]; simpl; [done|].
  by rewrite IH, inject_Z_plus.
Qed.

(** The loop when every call fails, for a document that has the four keys. *)
Lemma retry_loop_exhausted lk t m sid b max_retries :
  type_ lk = Some t → media lk = Some m → storageid lk = Some sid →
  bucket lk = Some b →
  (∀ tr', ∃ e, FILE_VIEW tr' t m sid b = Raise e) →
  ∀ remaining delay tr,
    1 ≤ remaining ≤ max_retries →
    ∃ e suffix,
      retry_loop FILE_VIEW lk max_retries remaining delay tr
      = (Raise e, tr ++ suffix)
      ∧ length (filter (λ ev, is_call ev = true) suffix) = remaining
      ∧ sleeps suffix = map inject_Z (backoff delay (remaining - 1))
      ∧ last suffix = Some (Call_FILE_VIEW t m sid b (Raise e)).
Proof.
  intros Ht Hm Hs Hb Hfail remaining.
  induction remaining as [|remaining IH]; intros delay tr Hrem; [lia|].
  simpl. unfold attempt_FILE_VIEW. rewrite Ht, Hm, Hs, Hb. simpl.
  destruct (Hfail tr) as [e He]. rewrite He.
  destruct (decide (max_retries - remaining = max_retries)) as [Heq|Hne].
  - assert (remaining = 0) as -> by lia.
    exists e, [Call_FILE_VIEW t m sid b (Raise e)]. by repeat split.
  - destruct (IH (delay * 2)%Z
                (((tr ++ [Call_FILE_VIEW t m sid b (Raise e)])
                  ++ [Log WARNING
                        (Retrying (max_retries - remaining) max_retries e
                           delay);
                      Sleep (inject_Z delay)])))
      as (e' & suffix & Hloop & Hcalls & Hsleeps & Hlast); [lia|].
    rewrite Hloop.
    exists e', (Call_FILE_VIEW t m sid b (Raise e)
                :: Log WARNING
                     (Retrying (max_retries - remaining) max_retries e delay)
                :: Sleep (inject_Z delay) :: suffix).
    split; [by rewrite <- !app_assoc|].
    split; [|split].
    + rewrite filter_cons_True by done.
      rewrite filter_cons_False by done. rewrite filter_cons_False by done.
      simpl. by rewrite Hcalls.
    + simpl. rewrite Hsleeps.
      destruct remaining as [|r]; [lia|]. simpl. by rewrite Nat.sub_0_r.
    + destruct suffix; [done|]. done.
Qed.

(** C5: when every call for a document fails, [file_view_with_retry] calls
    FILE_VIEW exactly [max_retries] times and raises the exception of the
    last call; it sleeps between the attempts for 2, 4, ... seconds, the
    total being the sum of that sequence, and the last thing it does is the
    last call (no sleep follows it). *)
Theorem file_view_with_retry_exhausted lk t m sid b max_retries tr :
  1 ≤ max_retries →
  type_ lk = Some t → media lk = Some m → storageid lk = Some sid →
  bucket lk = Some b →
  (∀ tr', ∃ e, FILE_VIEW tr' t m sid b = Raise e) →
  ∃ e suffix,
    file_view_with_retry FILE_VIEW lk max_retries tr = (Raise e, tr ++ suffix)
    ∧ length (filter (λ ev, is_call ev = true) suffix) = max_retries
    ∧ last suffix = Some (Call_FILE_VIEW t m sid b (Raise e))
    ∧ sleeps suffix = map inject_Z (backoff RETRY_DELAY (max_retries - 1))
    ∧ total_sleep suffix
      = inject_Z (sum_Z (backoff RETRY_DELAY (max_retries - 1))).
Proof.
  intros Hmax Ht Hm Hs Hb Hfail.
  destruct (retry_loop_exhausted lk t m sid b max_retries Ht Hm Hs Hb Hfail
              max_retries RETRY_DELAY tr) as (e & suffix & H1 & H2 & H3 & H4);
    [lia|].
  exists e, suffix. unfold file_view_with_retry, total_sleep.
  rewrite H3. rewrite total_sleep_inject. done.
Qed.

End Retry.

Lemma file_view_with_retry_exhausted_witness :
  ∃ e suffix,
    file_view_with_retry unavailable (doc "s1" "a.txt") MAX_RETRIES []
    = (Raise e, [] ++ suffix)
    ∧ length (filter (λ ev, is_call ev = true) suffix) = 3
    ∧ last suffix
      = Some (Call_FILE_VIEW 0 24 "s1" "leaks.public" (Raise e))
    ∧ sleeps suffix = map inject_Z [2; 4]%Z
    ∧ total_sleep suffix = inject_Z 6.
Proof.
  apply (file_view_with_retry_exhausted unavailable (doc "s1" "a.txt")
           0 24 "s1" "leaks.public" 3 []); try reflexivity.
  - unfold MAX_RETRIES. lia.
  - intros tr'. by exists (ApiError 500).
Defined.

(** ** Rate limiting between documents *)

(** C6 fails on the code: when the fetch of a document that is not the last
    raises on every attempt, the handler of line 236 ends in [continue] and
    the sleep of line 242 is passed over.  Here the first of two documents
    fails three times and the second is fetched right after the third
    failure: the only sleeps are the two retry delays. *)
Theorem no_delay_after_failed_document :
  let tr :=
    log (extract (serves_only "s2" "nothing") "corp.example"
           [doc "s1" "a.txt"; doc "s2" "b.txt"] empty_state) in
  tr = [Log DEBUG (Processing_leak 1 2 "a.txt");
        Call_FILE_VIEW 0 24 "s1" "leaks.public" (Raise (ApiError 500));
        Log WARNING (Retrying 1 3 (ApiError 500) 2);
        Sleep (inject_Z 2);
        Call_FILE_VIEW 0 24 "s1" "leaks.public" (Raise (ApiError 500));
        Log WARNING (Retrying 2 3 (ApiError 500) 4);
        Sleep (inject_Z 4);
        Call_FILE_VIEW 0 24 "s1" "leaks.public" (Raise (ApiError 500));
        Log ERROR (Error_processing "a.txt" (ApiError 500));
        Log DEBUG (Processing_leak 2 2 "b.txt");
        Call_FILE_VIEW 0 24 "s2" "leaks.public" (Ok "nothing")]
  ∧ Sleep REQUEST_DELAY ∉ tr.
Proof.
  split; [vm_compute; reflexivity|].
  vm_compute. intros H.
  repeat (apply elem_of_cons in H as [H|H]; [discriminate H|]).
  by apply elem_of_nil in H.
Qed.

Section RateLimit.
Variable FILE_VIEW : trace → Z → Z → string → string → result string.

Lemma sleeps_say st lv m : sleeps (log (say st lv m)) = sleeps (log st).
Proof. simpl. rewrite sleeps_app. simpl. by rewrite app_nil_r. Qed.

Lemma sleeps_extract_line target lk st line :
  sleeps (log (extract_line target lk st line)) = sleeps (log st).
Proof.
  unfold extract_line.
  destruct (Re.search (Re.escaped_ci target) line); [|done].
  destruct (Re.search CRED_PATTERN (Str.strip line)); [|apply sleeps_say].
  cbv zeta. destruct (decide _); by rewrite sleeps_say.
Qed.

Lemma sleeps_extract_lines target lk lines :
  ∀ st, sleeps (log (foldl (extract_line target lk) st lines))
        = sleeps (log st).
Proof.
  induction lines as [|line lines IH]; intros st; simpl; [done|].
  by rewrite IH, sleeps_extract_line.
Qed.

(** A call that succeeds is the only attempt. *)
Lemma file_view_with_retry_ok lk tr :
  complete lk →
  (∀ tr' t m sid b, ∃ contents, FILE_VIEW tr' t m sid b = Ok contents) →
  ∃ contents ev,
    file_view_with_retry FILE_VIEW lk MAX_RETRIES tr
    = (Ok contents, tr ++ [ev])
    ∧ is_call ev = true.
Proof.
  intros (_ & [t Ht] & [m Hm] & [sid Hs] & [b Hb]) Hok.
  unfold file_view_with_retry, MAX_RETRIES. simpl.
  unfold attempt_FILE_VIEW. rewrite Ht, Hm, Hs, Hb. simpl.
  destruct (Hok tr t m sid b) as [contents Hc]. rewrite Hc.
  by exists contents, (Call_FILE_VIEW t m sid b (Ok contents)).
Qed.

Lemma sleeps_process_leak target n st i lk :
  complete lk →
  (∀ tr' t m sid b, ∃ contents, FILE_VIEW tr' t m sid b = Ok contents) →
  sleeps (log (process_leak FILE_VIEW target n st i lk))
  = sleeps (log st)
    ++ (if decide (Z.of_nat i < Z.of_nat n - 1)%Z then [REQUEST_DELAY]
        else []).
Proof.
  intros Hlk Hok. unfold process_leak.
  destruct Hlk as ([nm Hnm] & Hrest). rewrite Hnm. simpl.
  destruct (file_view_with_retry_ok lk
              (log st ++ [Log DEBUG (Processing_leak (i + 1) n nm)]))
    as (contents & ev & Hfv & Hev); [by split; [eexists|]|done|].
  rewrite Hfv.
  assert (Hs : sleeps ((log st ++ [Log DEBUG (Processing_leak (i + 1) n nm)])
                       ++ [ev]) = sleeps (log st)).
  { rewrite !sleeps_app. destruct ev; try done. simpl. by rewrite !app_nil_r. }
  destruct (decide _); cbn [with_log log].
  - rewrite sleeps_app, sleeps_extract_lines. cbn [with_log log say].
    by rewrite Hs.
  - rewrite sleeps_extract_lines. cbn [with_log log say].
    by rewrite Hs, app_nil_r.
Qed.

Lemma sleeps_process_leaks target n leaks :
  Forall complete leaks →
  (∀ tr' t m sid b, ∃ contents, FILE_VIEW tr' t m sid b = Ok contents) →
  ∀ i st,
    i + length leaks = n →
    sleeps (log (process_leaks FILE_VIEW target n i leaks st))
    = sleeps (log st) ++ replicate (length leaks - 1) REQUEST_DELAY.
Proof.
  intros Hall Hok. induction Hall as [|lk leaks Hlk _ IH]; intros i st Hn.
  - simpl. by rewrite app_nil_r.
  - cbn [process_leaks length]. rewrite IH by (simpl in Hn; lia).
    rewrite sleeps_process_leak by done. rewrite <- app_assoc. f_equal.
    destruct leaks as [|lk' leaks]; simpl in *.
    + by rewrite decide_False by lia.
    + rewrite decide_True by lia. by rewrite Nat.sub_0_r.
Qed.

(** When every document is fetched, the run sleeps [REQUEST_DELAY] once
    between two documents and not after the last. *)
Lemma delay_between_fetched target results st :
  Forall complete results →
  (∀ tr' t m sid b, ∃ contents, FILE_VIEW tr' t m sid b = Ok contents) →
  sleeps (log (extract FILE_VIEW target results st))
  = sleeps (log st) ++ replicate (length results - 1) REQUEST_DELAY.
Proof. intros Hall Hok. by apply sleeps_process_leaks. Qed.

End RateLimit.

(** When both documents are fetched, the delay sits between them and not
    after the last. *)
Example delay_between_fetched_documents :
  sleeps (log (extract (serves "nothing") "corp.example"
                 [doc "s1" "a.txt"; doc "s2" "b.txt"] empty_state))
  = [REQUEST_DELAY].
Proof. vm_compute. reflexivity. Qed.

(** ** Result Aggregator *)

Section Aggregator.

Lemma truthy_sid_Some r sid :
  truthy_sid r = Some sid ↔ storageid r = Some sid ∧ sid ≠ "".
Proof.
  unfold truthy_sid. destruct (storageid r) as [s|]; [|naive_solver].
  destruct (decide (s = "")); naive_solver.
Qed.

Lemma agg_inv_init : agg_inv [] agg_init.
Proof.
  split; simpl.
  - constructor.
  - constructor.
  - set_solver.
  - done.
  - set_solver.
  - set_solver.
Qed.

Lemma agg_inv_say received st lv m :
  agg_inv received st → agg_inv received (agg_say st lv m).
Proof. intros []. by split. Qed.

(** A record that is passed over. *)
Lemma agg_inv_skip received st r :
  agg_inv received st →
  (∀ sid, storageid r = Some sid → sid ≠ "" → sid ∈ seen_ids st) →
  agg_inv (received ++ [r]) st.
Proof.
  intros [] Hr. split; auto.
  - by apply sublist_inserts_r.
  - intros r0 Hr0. destruct (inv_first0 r0 Hr0) as (l1 & l2 & -> & Hl1).
    exists l1, (l2 ++ [r]). by rewrite <- app_assoc.
  - intros r0 sid [Hin| ->%list_elem_of_singleton]%elem_of_app; eauto.
Qed.

Lemma agg_inv_add received st r :
  agg_inv received st → agg_inv (received ++ [r]) (add_record st r).
Proof.
  intros Hinv. unfold add_record.
  destruct (truthy_sid r) as [sid|] eqn:Hsid.
  - apply truthy_sid_Some in Hsid as [Hsid Hne].
    destruct (decide (sid ∈ seen_ids st)) as [Hin|Hnin].
    + apply agg_inv_skip; [done|]. intros sid' ?. by simplify_eq.
    + destruct Hinv. split; simpl.
      * rewrite map_app. simpl. apply NoDup_app. split; [done|].
        split; [|apply NoDup_singleton].
        intros x Hx ->%list_elem_of_singleton.
        rewrite Hsid in Hx. by apply inv_seen0 in Hx.
      * apply Forall_app. split; [done|]. constructor; [|done]. eauto.
      * intros sid'. rewrite map_app, elem_of_app, elem_of_union.
        rewrite inv_seen0. simpl. rewrite Hsid.
        rewrite elem_of_singleton, list_elem_of_singleton. naive_solver.
      * by apply sublist_app.
      * intros r0 [Hr0| ->%list_elem_of_singleton]%elem_of_app.
        -- destruct (inv_first0 r0 Hr0) as (l1 & l2 & -> & Hl1).
           exists l1, (l2 ++ [r]). by rewrite <- app_assoc.
        -- exists received, []. split; [done|].
           intros r' Hr' Heq. rewrite Hsid in Heq.
           apply Hnin. eauto.
      * intros r0 sid' [Hin| ->%list_elem_of_singleton]%elem_of_app Hs Hn.
        -- apply elem_of_union_r. eauto.
        -- apply elem_of_union_l. apply elem_of_singleton. congruence.
  - apply agg_inv_skip; [done|]. intros sid Hs Hn.
    assert (truthy_sid r = Some sid) by by apply truthy_sid_Some.
    congruence.
Qed.

Lemma agg_inv_records records :
  ∀ received st,
    agg_inv received st →
    agg_inv (received ++ records) (foldl add_record st records).
Proof.
  induction records as [|r records IH]; intros received st Hinv; simpl.
  - by rewrite app_nil_r.
  - rewrite cons_middle, app_assoc. apply IH. by apply agg_inv_add.
Qed.

Lemma agg_inv_queries responses :
  ∀ received st,
    agg_inv received st →
    agg_inv (received ++ records_in responses)
      (foldl query_step st responses).
Proof.
  induction responses as [|[[term bkt] [records|e]] responses IH];
    intros received st Hinv; simpl.
  - by rewrite app_nil_r.
  - rewrite app_assoc. apply IH.
    apply agg_inv_say, agg_inv_records, agg_inv_say, Hinv.
  - apply IH. by do 2 apply agg_inv_say.
Qed.

(** C8: the aggregated list has no two records with the same storage
    identifier, every record in it has a non-empty identifier, it keeps the
    order in which the records were received, each of its records is the
    first one received with its identifier, and every identifier received
    is in it. *)
Theorem aggregate_unique_first_seen responses :
  let results := all_results (aggregate responses) in
  NoDup (map storageid results)
  ∧ Forall (λ r, ∃ sid, storageid r = Some sid ∧ sid ≠ "") results
  ∧ results `sublist_of` records_in responses
  ∧ (∀ r, r ∈ results →
       ∃ l1 l2, records_in responses = l1 ++ r :: l2
                ∧ ∀ r', r' ∈ l1 → storageid r' ≠ storageid r)
  ∧ (∀ r sid,
       r ∈ records_in responses → storageid r = Some sid → sid ≠ "" →
       Some sid ∈ map storageid results).
Proof.
  destruct (agg_inv_queries responses [] agg_init agg_inv_init).
  simpl. repeat split; auto.
  intros r sid Hr Hs Hn. apply inv_seen0. eauto.
Qed.

End Aggregator.

Example aggregate_example :
  map storageid
    (all_results
       (aggregate
          [("corp.example", "leaks.private",
             Ok [doc "s1" "a.txt"; doc "" "anonymous"; doc "s2" "b.txt"]);
           ("corp.example", "leaks.public", Raise (ApiError 500));
           ("corp.example", "pastes",
             Ok [doc "s2" "b-again.txt"; doc "s3" "c.txt"])]))
  = [Some "s1"; Some "s2"; Some "s3"].
Proof. vm_compute. reflexivity. Qed.

(** ** Deduplication of credentials *)

Lemma dedup_inv_init seen0 : dedup_inv seen0 [] seen0 [].
Proof.
  split; [split|..]; simpl.
  - constructor.
  - set_solver.
  - done.
  - intros [|??] ???; done.
  - set_solver.
  - set_solver.
Qed.

(** A candidate whose key is known is discarded. *)
Lemma dedup_inv_duplicate seen0 met seen_ new c :
  dedup_inv seen0 met seen_ new → cred_key c ∈ seen_ →
  dedup_inv seen0 (met ++ [c]) seen_ new.
Proof.
  intros [[] Hseen Hmet] Hc. split; [split|..]; auto.
  - by apply sublist_inserts_r.
  - intros l1 c' l2 Heq Hfresh Hfirst.
    destruct l2 as [|x l2 _] using rev_ind.
    + apply app_inj_tail in Heq as [<- <-].
      apply Hseen in Hc as [Hc|Hc]; [done|].
      apply list_elem_of_fmap in Hc as (c0 & Hk & Hc0).
      exfalso. apply Hfirst. rewrite Hk. apply list_elem_of_fmap_2.
      eapply elem_of_sublist; eauto.
    + rewrite app_comm_cons, app_assoc in Heq.
      apply app_inj_tail in Heq as [-> _]. eauto.
  - intros c' [?| ->%list_elem_of_singleton]%elem_of_app; auto.
Qed.

(** A candidate whose key is new is retained. *)
Lemma dedup_inv_new seen0 met seen_ new c :
  dedup_inv seen0 met seen_ new → cred_key c ∉ seen_ →
  dedup_inv seen0 (met ++ [c]) ({[cred_key c]} ∪ seen_) (new ++ [c]).
Proof.
  intros [[] Hseen Hmet] Hc. split; [split|..].
  - rewrite map_app. apply NoDup_app. split; [done|].
    split; [|apply NoDup_singleton].
    intros k Hk ->%list_elem_of_singleton. apply Hc, Hseen. by right.
  - intros c' [?| ->%list_elem_of_singleton]%elem_of_app; [auto|].
    intros Hin. apply Hc, Hseen. by left.
  - by apply sublist_app.
  - intros l1 c' l2 Heq Hfresh Hfirst.
    destruct l2 as [|x l2 _] using rev_ind.
    + apply app_inj_tail in Heq as [_ <-]. set_solver.
    + rewrite app_comm_cons, app_assoc in Heq.
      apply app_inj_tail in Heq as [-> _].
      apply elem_of_app. left. eauto.
  - intros k. rewrite elem_of_union, elem_of_singleton, Hseen, map_app,
      elem_of_app. simpl. rewrite list_elem_of_singleton. naive_solver.
  - intros c' [?| ->%list_elem_of_singleton]%elem_of_app; set_solver.
Qed.

(** [extract_line] is [candidate] followed by the lookup in [seen]. *)
Lemma extract_line_candidate target lk st line :
  let st' := extract_line target lk st line in
  (seen st', new_creds st')
  = match candidate target (name_or_unknown lk) line with
    | None => (seen st, new_creds st)
    | Some c =>
        if decide (cred_key c ∈ seen st) then (seen st, new_creds st)
        else ({[cred_key c]} ∪ seen st, new_creds st ++ [c])
    end.
Proof.
  unfold extract_line, candidate.
  destruct (Re.search (Re.escaped_ci target) line); [|done].
  destruct (Re.search CRED_PATTERN (Str.strip line)) as [cm|]; [|done].
  simpl. by destruct (decide _).
Qed.

Lemma option_list_candidate {A} (o : option A) met :
  met ++ option_list o = match o with Some c => met ++ [c] | None => met end.
Proof. destruct o; simpl; [done|apply app_nil_r]. Qed.

Lemma dedup_inv_extract_line seen0 met target lk st line :
  dedup_inv seen0 met (seen st) (new_creds st) →
  let st' := extract_line target lk st line in
  dedup_inv seen0
    (met ++ option_list (candidate target (name_or_unknown lk) line))
    (seen st') (new_creds st').
Proof.
  intros Hinv st'. subst st'. rewrite option_list_candidate.
  pose proof (extract_line_candidate target lk st line) as Heq.
  simpl in Heq.
  destruct (candidate target (name_or_unknown lk) line) as [c|].
  - destruct (decide _); injection Heq as -> ->.
    + by apply dedup_inv_duplicate.
    + by apply dedup_inv_new.
  - by injection Heq as -> ->.
Qed.

Lemma omap_option_list {A B} (f : A → option B) x l :
  omap f (x :: l) = option_list (f x) ++ omap f l.
Proof. simpl. by destruct (f x). Qed.

Lemma dedup_inv_lines seen0 target lk lines :
  ∀ met st,
    dedup_inv seen0 met (seen st) (new_creds st) →
    let st' := foldl (extract_line target lk) st lines in
    dedup_inv seen0
      (met ++ omap (candidate target (name_or_unknown lk)) lines)
      (seen st') (new_creds st').
Proof.
  induction lines as [|line lines IH]; intros met st Hinv.
  - simpl. by rewrite app_nil_r.
  - rewrite omap_option_list, app_assoc. cbn [foldl].
    apply IH. by apply dedup_inv_extract_line.
Qed.

Section Dedup.
Variable json_load : string → result pyval.
Variable csv_DictReader : string → list (list (string * pyval)) * option exn.
Variable format_value : pyval → string.
Variable FILE_VIEW : trace → Z → Z → string → string → result string.

Lemma dedup_inv_process_leak seen0 target n i lk met st :
  dedup_inv seen0 met (seen st) (new_creds st) →
  let st' := process_leak FILE_VIEW target n st i lk in
  dedup_inv seen0 (met ++ candidates_of_leak FILE_VIEW target n st i lk)
    (seen st') (new_creds st').
Proof.
  intros Hinv. unfold process_leak, candidates_of_leak.
  destruct (item (name lk) "name") as [nm|e]; simpl.
  2: by rewrite app_nil_r.
  destruct (file_view_with_retry _ _ _ _) as [[contents|e] tr]; simpl.
  2: by rewrite app_nil_r.
  match goal with
  | |- context [foldl ?f ?s ?l] =>
      pose proof (dedup_inv_lines seen0 target lk l met s Hinv) as H
  end.
  simpl in H. by destruct (decide _).
Qed.

Lemma dedup_inv_process_leaks seen0 target n leaks :
  ∀ i met st,
    dedup_inv seen0 met (seen st) (new_creds st) →
    let st' := process_leaks FILE_VIEW target n i leaks st in
    dedup_inv seen0
      (met ++ candidates_of_run FILE_VIEW target n i leaks st)
      (seen st') (new_creds st').
Proof.
  induction leaks as [|lk leaks IH]; intros i met st Hinv; simpl.
  - by rewrite app_nil_r.
  - rewrite app_assoc. apply IH. by apply dedup_inv_process_leak.
Qed.

Lemma resume_load_new_creds fmt_ f :
  new_creds (resume_load json_load csv_DictReader format_value fmt_ f) = [].
Proof.
  unfold resume_load. destruct (exists_ f); [|done].
  destruct (load_body _ _ _ _ _) as [s [e|]]; [|done].
  by destruct (decide _).
Qed.

(** C1: in every run no two retained records share a dedup key, no
    retained record has a key loaded from the existing output, and of the
    candidates with one key the first that the run meets is the retained
    one; the keys known at the end are the loaded ones and those of the
    retained records. *)
Theorem dedup_first_seen_wins fmt_ target results f :
  let st0 := resume_load json_load csv_DictReader format_value fmt_ f in
  let st := extract FILE_VIEW target results st0 in
  first_seen_wins (seen st0)
    (candidates_of_run FILE_VIEW target (length results) 0 results st0)
    (new_creds st)
  ∧ seen st = seen st0 ∪ list_to_set (map cred_key (new_creds st)).
Proof.
  intros st0 st.
  pose proof (dedup_inv_process_leaks (seen st0) target (length results)
                results 0 [] st0) as H.
  simpl in H.
  destruct H as [Hwins Hseen _].
  { subst st0. rewrite resume_load_new_creds. apply dedup_inv_init. }
  split; [done|].
  apply set_eq. intros k. rewrite elem_of_union, elem_of_list_to_set.
  apply Hseen.
Qed.

End Dedup.

Example second_occurrence_discarded :
  map (λ c, (cred_key c, source c))
    (new_creds
       (extract (serves "alice@corp.example:pw1
see http://x/:alice@corp.example:pw1
bob@corp.example:pw2")
          "corp.example" [doc "s1" "a.txt"; doc "s2" "b.txt"]
          {| seen := {["bob@corp.example:pw2"]}; new_creds := [];
             log := [] |}))
  = [("alice@corp.example:pw1", "a.txt")].
Proof. vm_compute. reflexivity. Qed.

(** ** Resume and output *)

Section Output.
Variable json_load : string → result pyval.
Variable json_dump : pyval → string.
Variable csv_DictReader : string → list (list (string * pyval)) * option exn.
Variable csv_writerow : list string → string.
Variable format_value : pyval → string.
Variable FILE_VIEW : trace → Z → Z → string → string → result string.

Lemma entry_key_record c :
  entry_key format_value (cred_to_py c) = Ok (cred_key c).
Proof. done. Qed.

Lemma load_entries_records recs :
  ∀ s, load_entries format_value (map cred_to_py recs) s
       = (list_to_set (map cred_key recs) ∪ s, None).
Proof.
  induction recs as [|c recs IH]; intros s.
  - simpl. f_equal. clear. set_solver.
  - cbn [map load_entries]. rewrite entry_key_record, IH.
    f_equal. simpl. clear. set_solver.
Qed.

Lemma exists_Some f old : file f = Some old → exists_ f = true.
Proof. intros H. unfold exists_. apply bool_decide_eq_true. by eexists. Qed.

Lemma exists_file_with text : exists_ (file_with text) = true.
Proof. by apply (exists_Some _ text). Qed.

Lemma append_empty_r s : s +:+ "" = s.
Proof.
  induction s as [|a s IH]; [done|].
  change (String a (s +:+ "") = String a s). by rewrite IH.
Qed.

(** Reloading a file that holds the document of [recs]. *)
Lemma resume_load_records recs :
  json_load (json_dump (records_doc recs)) = Ok (records_doc recs) →
  let st := resume_load json_load csv_DictReader format_value Json
              (file_with (json_dump (records_doc recs))) in
  seen st = list_to_set (map cred_key recs)
  ∧ log st
    = [Log INFO Resuming; Log INFO (Loaded_existing (size (seen st)))].
Proof.
  intros Hrt. unfold resume_load. rewrite exists_file_with.
  unfold load_body. cbn [open_r file_with read_error file mbind result_bind].
  rewrite Hrt. cbn [py_iter records_doc].
  rewrite load_entries_records. simpl.
  split; [|done]. clear. set_solver.
Qed.

(** C2: the records written to a new destination in the json format are
    the document of the list, and reloading that file gives exactly their
    dedup keys, with no warning. *)
Theorem json_round_trip recs :
  json_load (json_dump (records_doc recs)) = Ok (records_doc recs) →
  write_output json_load json_dump csv_writerow Json no_file recs
  = Ok (file_with (json_dump (records_doc recs)))
  ∧ let st := resume_load json_load csv_DictReader format_value Json
                (file_with (json_dump (records_doc recs))) in
    seen st = list_to_set (map cred_key recs)
    ∧ log st
      = [Log INFO Resuming; Log INFO (Loaded_existing (size (seen st)))].
Proof.
  intros Hrt. split; [done|]. by apply resume_load_records.
Qed.

(** The same when the destination already holds records: the new document
    is the old records followed by the new ones. *)
Lemma json_round_trip_merge old new :
  json_load (json_dump (records_doc old)) = Ok (records_doc old) →
  json_load (json_dump (records_doc (old ++ new)))
  = Ok (records_doc (old ++ new)) →
  write_output json_load json_dump csv_writerow Json
    (file_with (json_dump (records_doc old))) new
  = Ok (file_with (json_dump (records_doc (old ++ new))))
  ∧ seen (resume_load json_load csv_DictReader format_value Json
            (file_with (json_dump (records_doc (old ++ new)))))
    = list_to_set (map cred_key (old ++ new)).
Proof.
  intros Hold Hall. split; [|by apply resume_load_records].
  unfold write_output, existing_entries. rewrite exists_file_with.
  cbn [open_r file_with read_error file mbind result_bind].
  rewrite Hold. cbn [records_doc py_add_list mbind result_bind].
  unfold records_doc. by rewrite map_app.
Qed.

(** *** The destination after a run *)

Lemma finish_new_creds fmt_ f st :
  new_creds (final (finish json_load json_dump csv_writerow fmt_ f st))
  = new_creds st.
Proof.
  unfold finish. destruct (new_creds st) eqn:Hnew; [done|].
  destruct (write_output _ _ _ _ _ _); simpl; [done|].
  by destruct (decide _).
Qed.

Lemma finish_fs fmt_ f st :
  let o := finish json_load json_dump csv_writerow fmt_ f st in
  final_fs o = f
  ∨ new_creds st ≠ []
    ∧ write_output json_load json_dump csv_writerow fmt_ f (new_creds st)
      = Ok (final_fs o).
Proof.
  unfold finish. destruct (new_creds st) eqn:Hnew; [by left|].
  destruct (write_output _ _ _ _ _ _) eqn:Hw; simpl; [|by left].
  by right.
Qed.

Lemma write_a_file f s f' :
  write_a f s = Ok f' → file f' = Some (default "" (file f) +:+ s).
Proof.
  unfold write_a, write_w. destruct (write_error f); [done|].
  by intros [= <-].
Qed.

Lemma write_w_file f s f' : write_w f s = Ok f' → file f' = Some s.
Proof.
  unfold write_w. destruct (write_error f); [done|]. by intros [= <-].
Qed.

(** C7: a run never removes or reorders what the destination holds.  In
    the txt and csv formats the new text is the old text followed by
    something; in the json format the file is either left as it is or
    rewritten with a document that starts with all the entries the old
    file holds (none when it cannot be read as JSON), followed by the new
    records. *)
Theorem existing_content_kept fmt_ target results f old :
  file f = Some old →
  let o := main json_load json_dump csv_DictReader csv_writerow format_value
             FILE_VIEW fmt_ target results f in
  match fmt_ with
  | Json =>
      file (final_fs o) = Some old
      ∨ ∃ entries,
          file (final_fs o)
          = Some (json_dump
                    (PList (entries ++ map cred_to_py (new_creds (final o)))))
          ∧ (∀ v, open_r f ≫= json_load = Ok v → v = PList entries)
          ∧ (∀ e, open_r f ≫= json_load = Raise e → entries = [])
  | _ => ∃ suffix, file (final_fs o) = Some (old +:+ suffix)
  end.
Proof.
  intros Hold o. subst o. unfold main.
  set (st := extract _ _ _ _).
  rewrite finish_new_creds.
  destruct (finish_fs fmt_ f st) as [Heq|[_ Hw]].
  - rewrite Heq, Hold.
    destruct fmt_; [exists ""|by left|exists ""]; by rewrite append_empty_r.
  - destruct fmt_; simpl in Hw.
    + apply write_a_file in Hw. rewrite Hold in Hw. eauto.
    + right.
      destruct (existing_entries json_load f) as [existing|e] eqn:Hex;
        [|done].
      simpl in Hw.
      destruct existing as [| | | |entries|]; try done.
      simpl in Hw. apply write_w_file in Hw.
      exists entries. split; [done|].
      unfold existing_entries in Hex. rewrite (exists_Some f old Hold) in Hex.
      split.
      * intros v Hv. rewrite Hv in Hex. congruence.
      * intros e He. rewrite He in Hex. destruct (decide _); congruence.
    + apply write_a_file in Hw. rewrite Hold in Hw. eauto.
Qed.

(** C10: a run that extracts no new record leaves the destination as it
    was (absent if it was absent), logs that nothing was found instead of
    writing, and ends with status zero. *)
Theorem no_new_credentials_no_write fmt_ target results f :
  let o := main json_load json_dump csv_DictReader csv_writerow format_value
             FILE_VIEW fmt_ target results f in
  new_creds (final o) = [] →
  final_fs o = f
  ∧ exit_status o = 0%Z
  ∧ ∃ tr n, log (final o)
            = tr ++ [Log INFO No_new_credentials; Log INFO (Total_unique n)].
Proof.
  intros o. subst o. unfold main. rewrite finish_new_creds.
  set (st := extract _ _ _ _). intros Hnew.
  unfold finish. rewrite Hnew. simpl. repeat split.
  exists (log st), (size (seen st)). by rewrite <- app_assoc.
Qed.

(** *** Loading the existing output *)

(** The loop of lines 151-153 on entries that are objects up to one that
    is not. *)
Lemma load_entries_upto good bad rest :
  (∀ d, bad ≠ PDict d) →
  ∀ s, load_entries format_value (map PDict good ++ bad :: rest) s
       = (list_to_set (map (row_key format_value) good) ∪ s,
          Some AttributeError).
Proof.
  intros Hbad. induction good as [|d good IH]; intros s.
  - simpl. destruct bad; try (f_equal; clear; set_solver).
    by destruct (Hbad d).
  - cbn [map app load_entries entry_key]. rewrite IH.
    f_equal. unfold row_key. simpl. clear. set_solver.
Qed.

(** C9, as the code has it: loading never stops the run, which goes on
    from the state [resume_load] returns.  When the file is absent nothing
    is loaded and nothing is logged.  When it exists and loading raises, one
    warning is logged and the store holds the keys read before the
    exception: none when the file cannot be opened or is not JSON, and
    those of the entries in front of the first one that is not an object
    when the file is a JSON list. *)
Theorem resume_load_failure fmt_ f :
  let st := resume_load json_load csv_DictReader format_value fmt_ f in
  let loaded := load_body json_load csv_DictReader format_value fmt_ f in
  new_creds st = []
  ∧ match file f with
    | None => seen st = ∅ ∧ log st = []
    | Some _ =>
        ∀ e, loaded.2 = Some e →
          seen st = loaded.1
          ∧ (∃ m, log st = [Log INFO Resuming; Log WARNING m])
          ∧ (∀ e', open_r f = Raise e' → seen st = ∅)
          ∧ (fmt_ = Json →
             (∀ e', open_r f ≫= json_load = Raise e' → seen st = ∅)
             ∧ (∀ good bad rest,
                  open_r f ≫= json_load
                  = Ok (PList (map PDict good ++ bad :: rest)) →
                  (∀ d, bad ≠ PDict d) →
                  seen st = list_to_set (map (row_key format_value) good)))
    end.
Proof.
  intros st loaded. subst st loaded.
  split; [apply resume_load_new_creds|].
  destruct (file f) as [old|] eqn:Hold.
  - intros e He. unfold resume_load. rewrite (exists_Some f old Hold).
    destruct (load_body json_load csv_DictReader format_value fmt_ f)
      as [s o] eqn:Hbody.
    simpl in He. subst o. cbn [fst].
    assert (Hopen : ∀ e', open_r f = Raise e' → s = ∅).
    { intros e' Hopen. unfold load_body in Hbody. rewrite Hopen in Hbody.
      destruct fmt_; simpl in *; congruence. }
    assert (Hjson : fmt_ = Json →
              (∀ e', open_r f ≫= json_load = Raise e' → s = ∅)
              ∧ (∀ good bad rest,
                   open_r f ≫= json_load
                   = Ok (PList (map PDict good ++ bad :: rest)) →
                   (∀ d, bad ≠ PDict d) →
                   s = list_to_set (map (row_key format_value) good))).
    { intros ->. unfold load_body in Hbody. split.
      - intros e' Hload. rewrite Hload in Hbody. congruence.
      - intros good bad rest Hload Hbad. rewrite Hload in Hbody.
        cbn [py_iter] in Hbody.
        rewrite (load_entries_upto good bad rest Hbad) in Hbody.
        injection Hbody as <- _. clear. set_solver. }
    by destruct (decide _); (split; [done|]); (split; [eauto|]).
  - unfold resume_load, exists_. rewrite Hold.
    rewrite bool_decide_eq_false_2; [done|]. by intros [? ?].
Qed.

End Output.

(** *** The same on concrete files *)

Lemma json_round_trip_witness :
  Json.load (Json.dump (records_doc [alice; bob]))
  = Ok (records_doc [alice; bob])
  ∧ write_output Json.load Json.dump Csv.writerow Json no_file [alice; bob]
    = Ok (file_with (Json.dump (records_doc [alice; bob])))
  ∧ let st := resume_load Json.load Csv.DictReader str_value Json
                (file_with (Json.dump (records_doc [alice; bob]))) in
    seen st = list_to_set (map cred_key [alice; bob])
    ∧ log st
      = [Log INFO Resuming; Log INFO (Loaded_existing (size (seen st)))].
Proof.
  split; [vm_compute; reflexivity|].
  apply (json_round_trip Json.load Json.dump Csv.DictReader Csv.writerow
           str_value [alice; bob]).
  vm_compute; reflexivity.
Defined.

Lemma existing_content_kept_witness :
  ∃ suffix,
    file (final_fs
            (run_main (serves "login:alice@corp.example:Sup3rSecret!") Txt
               "corp.example" [doc "s1" "a.txt"]
               (file_with "bob@corp.example:pa:ss word")))
    = Some ("bob@corp.example:pa:ss word" +:+ suffix).
Proof.
  exact (existing_content_kept Json.load Json.dump Csv.DictReader
           Csv.writerow str_value
           (serves "login:alice@corp.example:Sup3rSecret!") Txt
           "corp.example" [doc "s1" "a.txt"]
           (file_with "bob@corp.example:pa:ss word")
           "bob@corp.example:pa:ss word" eq_refl).
Defined.

Lemma no_new_credentials_no_write_witness :
  let o := run_main (serves "nothing about corp.example here") Csv
             "corp.example" [doc "s1" "a.txt"] no_file in
  new_creds (final o) = []
  ∧ final_fs o = no_file
  ∧ exit_status o = 0%Z
  ∧ ∃ tr n, log (final o)
            = tr ++ [Log INFO No_new_credentials; Log INFO (Total_unique n)].
Proof.
  intros o. split; [vm_compute; reflexivity|].
  apply (no_new_credentials_no_write Json.load Json.dump Csv.DictReader
           Csv.writerow str_value
           (serves "nothing about corp.example here") Csv "corp.example"
           [doc "s1" "a.txt"] no_file).
  vm_compute; reflexivity.
Defined.

(** C9 as stated fails twice.  When the file is absent no warning is
    logged; and a failure in the middle of the file leaves the keys read so
    far in the store: on [half_good] loading raises [AttributeError] at the
    second entry and the store holds the key of the first. *)
Lemma load_failure_not_empty :
  ¬ (∀ fmt_ f,
       file f = None →
       ∃ m, Log WARNING m
            ∈ log (resume_load Json.load Csv.DictReader str_value fmt_ f))
  ∧ ¬ (∀ fmt_ f e,
         (load_body Json.load Csv.DictReader str_value fmt_ f).2 = Some e →
         seen (resume_load Json.load Csv.DictReader str_value fmt_ f) = ∅).
Proof.
  split.
  - intros H. destruct (H Json no_file eq_refl) as [m Hm].
    vm_compute in Hm. by apply elem_of_nil in Hm.
  - intros H.
    specialize (H Json (file_with half_good) AttributeError).
    apply (f_equal elements) in H; [|vm_compute; reflexivity].
    vm_compute in H. discriminate H.
Qed.

(** What the run logs and keeps on [half_good]. *)
Example half_good_loaded :
  let st := resume_load Json.load Csv.DictReader str_value Json
              (file_with half_good) in
  elements (seen st) = [cred_key alice]
  ∧ log st = [Log INFO Resuming; Log WARNING (Error_loading AttributeError)].
Proof. vm_compute. split; reflexivity. Qed.

Lemma resume_load_failure_witness :
  let st := resume_load Json.load Csv.DictReader str_value Json
              (file_with half_good) in
  (load_body Json.load Csv.DictReader str_value Json
     (file_with half_good)).2 = Some AttributeError
  ∧ (∃ m, log st = [Log INFO Resuming; Log WARNING m])
  ∧ seen st = list_to_set [cred_key alice].
Proof.
  intros st.
  destruct (resume_load_failure Json.load Csv.DictReader str_value Json
              (file_with half_good)) as [_ H].
  destruct (H AttributeError) as (_ & Hlog & _ & Hjson);
    [vm_compute; reflexivity|].
  destruct (Hjson eq_refl) as [_ Hupto].
  split; [vm_compute; reflexivity|]. split; [exact Hlog|].
  apply (Hupto [[("url", PStr (url alice)); ("email", PStr (email alice));
                 ("password", PStr (password alice));
                 ("source", PStr (source alice)); ("raw", PStr (raw alice))]]
           (PInt 5) []).
  - vm_compute; reflexivity.
  - intros d; discriminate.
Defined.

Example json_merge_example :
  file (final_fs
          (run_main
             (serves (raw alice)) Json
             "corp.example" [doc "s1" "a.txt"]
             (file_with (Json.dump (records_doc [bob])))))
  = Some (Json.dump (records_doc [bob; alice])).
Proof. vm_compute. reflexivity. Qed.

(** * Further properties *)

(** ** The matcher finds a match exactly when there is one *)

Module ReComplete.
Import Re ReFacts.

Lemma repeat_greedy_complete {R} p lo w rest :
  Forall (λ a, p a = true) w → lo ≤ length w →
  ∀ pos (k : list ascii → nat → option R),
    is_Some (k rest (pos + length w)) →
    is_Some (repeat_greedy p lo (w ++ rest) pos k).
Proof.
  intros Hall. revert lo.
  induction Hall as [|a w Ha Hw IH]; intros lo Hlo pos k Hk.
  - simpl in Hlo. assert (lo = 0) as -> by lia.
    rewrite Nat.add_0_r in Hk. simpl.
    destruct rest as [|b rest]; simpl; [done|].
    destruct (p b); [|done].
    by destruct (repeat_greedy p 0 rest (S pos) k).
  - simpl in *. rewrite Ha.
    destruct (IH (pred lo) ltac:(lia) (S pos) k) as [r Hr].
    { by rewrite <- Nat.add_succ_comm in Hk. }
    rewrite Hr. by eexists.
Qed.

Lemma run_complete {R} r :
  ∀ w rest pos c (k : list ascii → nat → captures → option R),
    accepts r w rest →
    (∀ c', is_Some (k rest (pos + length w) c')) →
    is_Some (run r (w ++ rest) pos c k).
Proof.
  induction r as [|p|p lo|r1 IH1 r2 IH2|g r1 IH1|];
    intros w rest pos c k Hacc Hk; simpl in Hacc.
  - subst w. simpl. rewrite <- (Nat.add_0_r pos). apply Hk.
  - destruct Hacc as (a & -> & Ha). simpl. rewrite Ha.
    rewrite <- Nat.add_1_r. apply Hk.
  - destruct Hacc as [Hall Hlo]. simpl.
    by apply repeat_greedy_complete.
  - destruct Hacc as (w1 & w2 & -> & H1 & H2). simpl.
    rewrite <- app_assoc. apply IH1; [done|].
    intros c'. apply IH2; [done|].
    intros c''. rewrite <- Nat.add_assoc, <- length_app. apply Hk.
  - simpl. apply IH1; [done|]. intros c'. apply Hk.
  - destruct Hacc as [-> Hend]. simpl. rewrite Hend.
    rewrite <- (Nat.add_0_r pos). apply Hk.
Qed.

Lemma search_from_complete r subj pre w rest :
  accepts r w rest →
  ∀ pos, is_Some (search_from r subj (pre ++ w ++ rest) pos).
Proof.
  intros Hacc. induction pre as [|a pre IH]; intros pos.
  - simpl.
    destruct (run_complete r w rest pos ∅ (λ _ e c, Some (e, c)) Hacc)
      as [[e c] Hr]; [by eexists|].
    destruct (w ++ rest); simpl; rewrite Hr; by eexists.
  - simpl. destruct (run r _ pos ∅ _) as [[e c]|]; [by eexists|].
    apply IH.
Qed.

(** No match starts before the one [search] returns. *)
Lemma search_from_leftmost r subj s :
  ∀ pos m,
    search_from r subj s pos = Some m →
    ∀ pre w rest, s = pre ++ w ++ rest → accepts r w rest →
      start m ≤ pos + length pre.
Proof.
  induction s as [|a s IH]; intros pos m H pre w rest Hs Hacc; simpl in H.
  - destruct (run r [] pos ∅ _) as [[e c]|]; [|done].
    injection H as <-. unfold start. simpl. lia.
  - destruct (run r (a :: s) pos ∅ _) as [[e c]|] eqn:Hr.
    + injection H as <-. unfold start. simpl. lia.
    + destruct pre as [|b pre].
      * simpl in Hs. rewrite Hs in Hr.
        destruct (run_complete r w rest pos ∅ (λ _ e c, Some (e, c)) Hacc)
          as [x Hx]; [by eexists|]. congruence.
      * injection Hs as -> ->.
        specialize (IH (S pos) m H pre w rest eq_refl Hacc).
        simpl. lia.
Qed.

(** [search] succeeds exactly on the subjects that hold a word the
    expression accepts, and returns the leftmost match. *)
Lemma search_iff r subj :
  is_Some (search r subj)
  ↔ ∃ pre w rest, Str.to_list subj = pre ++ w ++ rest ∧ accepts r w rest.
Proof.
  unfold search. split.
  - intros [m Hm].
    apply search_from_sound in Hm as (pre & s' & e & c & Hs & Hrun & _).
    apply run_sound in Hrun as (w & rest & c' & -> & Hacc & _).
    by exists pre, w, rest.
  - intros (pre & w & rest & -> & Hacc). by apply search_from_complete.
Qed.

End ReComplete.

(** ** Which lines the two patterns accept *)

Section Patterns.
Import Re ReFacts ReComplete.

Lemma accepts_EMAIL_PART em rest : accepts EMAIL_PART em rest ↔ is_email em.
Proof.
  unfold is_email. simpl. split.
  - intros (w1 & r1 & -> & [Hw1 Hl1] & w2 & r2 & -> & (a & -> & Ha)
            & w3 & r3 & -> & [Hw3 Hl3] & w4 & w5 & -> & (b & -> & Hb)
            & [Hw5 Hl5]).
    apply Ascii.eqb_eq in Ha as ->. apply Ascii.eqb_eq in Hb as ->.
    exists w1, w3, w5. repeat split; auto.
    + intros ->. simpl in Hl1. lia.
    + intros ->. simpl in Hl3. lia.
  - intros (local & dom & tld & -> & Hl & Hln & Hd & Hdn & Ht & Htl).
    exists local, (["@"%char] ++ dom ++ ["."%char] ++ tld).
    split; [done|]. split.
    { split; [done|]. destruct local; [done|simpl; lia]. }
    exists ["@"%char], (dom ++ ["."%char] ++ tld). split; [done|]. split.
    { by exists "@"%char. }
    exists dom, (["."%char] ++ tld). split; [done|]. split.
    { split; [done|]. destruct dom; [done|simpl; lia]. }
    exists ["."%char], tld. split; [done|]. split; [by exists "."%char|done].
Qed.

Lemma accepts_CRED_PATTERN w rest :
  accepts CRED_PATTERN w rest
  ↔ ∃ em pw,
      w = em ++ [":"%char] ++ pw ∧ is_email em
      ∧ Forall (λ a, any_char a = true) pw ∧ pw ≠ []
      ∧ at_end rest = true.
Proof.
  unfold CRED_PATTERN. cbn [accepts]. split.
  - intros (em & w2 & -> & Hem & w3 & w4 & -> & (a & -> & Ha)
            & pw & w6 & -> & [Hpw Hl] & -> & Hend).
    apply Ascii.eqb_eq in Ha as ->. apply accepts_EMAIL_PART in Hem.
    exists em, pw. rewrite app_nil_r. repeat split; auto.
    intros ->. simpl in Hl. lia.
  - intros (em & pw & -> & Hem & Hpw & Hne & Hend).
    exists em, ([":"%char] ++ pw). split; [done|].
    split; [by apply accepts_EMAIL_PART|].
    exists [":"%char], pw. split; [done|]. split; [by exists ":"%char|].
    exists pw, []. rewrite app_nil_r. split; [done|].
    split; [|done]. split; [done|]. destruct pw; [done|simpl; lia].
Qed.

(** X1: a line matches [CRED_PATTERN] exactly when it is some text, an
    email, a colon, a non-empty password without newline and at most one
    final newline; the match that is returned starts at the leftmost
    position where such a reading exists. *)
Theorem cred_pattern_matches_iff line :
  (is_Some (search CRED_PATTERN line)
   ↔ ∃ pre em pw rest,
       Str.to_list line = pre ++ em ++ [":"%char] ++ pw ++ rest
       ∧ is_email em ∧ Forall (λ a, any_char a = true) pw ∧ pw ≠ []
       ∧ at_end rest = true)
  ∧ ∀ m pre em pw rest,
      search CRED_PATTERN line = Some m →
      Str.to_list line = pre ++ em ++ [":"%char] ++ pw ++ rest →
      is_email em → Forall (λ a, any_char a = true) pw → pw ≠ [] →
      at_end rest = true →
      start m ≤ length pre.
Proof.
  split.
  - rewrite search_iff. split.
    + intros (pre & w & rest & Hl & Hacc).
      apply accepts_CRED_PATTERN in Hacc as (em & pw & -> & ? & ? & ? & ?).
      exists pre, em, pw, rest. by rewrite Hl, <- !app_assoc.
    + intros (pre & em & pw & rest & Hl & ? & ? & ? & ?).
      exists pre, (em ++ [":"%char] ++ pw), rest.
      split; [by rewrite Hl, <- !app_assoc|].
      apply accepts_CRED_PATTERN. by exists em, pw.
  - intros m pre em pw rest Hm Hl Hem Hpw Hne Hend.
    apply (search_from_leftmost CRED_PATTERN line (Str.to_list line) 0 m Hm
             pre (em ++ [":"%char] ++ pw) rest).
    + by rewrite Hl, <- !app_assoc.
    + apply accepts_CRED_PATTERN. by exists em, pw.
Qed.

Lemma accepts_escaped_ci t w rest :
  accepts (escaped_ci t) w rest ↔ same_ci (Str.to_list t) w.
Proof.
  unfold escaped_ci, same_ci. revert w.
  induction (Str.to_list t) as [|a l IH]; intros w; simpl.
  - split; [intros ->; constructor|by intros ->%Forall2_nil_inv_l].
  - split.
    + intros (w1 & w2 & -> & (b & -> & Hb) & Hw2).
      constructor; [done|]. by apply IH.
    + intros (b & w2 & Hb & Hw2 & ->)%Forall2_cons_inv_l.
      exists [b], w2. split; [done|]. split; [by exists b|by apply IH].
Qed.

Lemma search_escaped_ci_iff target line :
  is_Some (search (escaped_ci target) line)
  ↔ ∃ pre w rest,
      Str.to_list line = pre ++ w ++ rest
      ∧ same_ci (Str.to_list target) w.
Proof.
  rewrite search_iff. by setoid_rewrite accepts_escaped_ci.
Qed.


(** X3: a line that does not hold the target leaves the state as it is:
    no record, no key, no logging call. *)
Theorem extract_line_without_target target lk st line :
  (¬ ∃ pre w rest,
       Str.to_list line = pre ++ w ++ rest
       ∧ same_ci (Str.to_list target) w) →
  extract_line target lk st line = st.
Proof.
  intros Hno. unfold extract_line.
  destruct (search (escaped_ci target) line) as [m|] eqn:Hs; [|done].
  destruct Hno. apply search_escaped_ci_iff. by eexists.
Qed.

End Patterns.

Lemma extract_line_without_target_witness :
  extract_line "corp.example" (doc "s1" "a.txt") empty_state
    "randomtext nopattern"
  = empty_state.
Proof.
  apply extract_line_without_target.
  intros H. apply search_escaped_ci_iff in H.
  vm_compute in H. by destruct H.
Defined.

(** ** Stripping *)

Module StrFacts.
Import Str ReFacts.

Lemma lstrip_with_spec p l :
  ∃ ws, l = ws ++ lstrip_with p l ∧ Forall (λ a, p a = true) ws
        ∧ (lstrip_with p l = []
           ∨ ∃ a l', lstrip_with p l = a :: l' ∧ p a = false).
Proof.
  induction l as [|a l (ws & Hl & Hws & Hhd)]; simpl.
  - exists []. repeat split; auto.
  - destruct (p a) eqn:Hp.
    + exists (a :: ws). simpl. rewrite <- Hl. repeat split; auto.
    + exists []. repeat split; eauto.
Qed.

Lemma lstrip_with_id p l :
  (l = [] ∨ ∃ a l', l = a :: l' ∧ p a = false) → lstrip_with p l = l.
Proof. intros [->|(a & l' & -> & Hp)]; simpl; [done|by rewrite Hp]. Qed.

Lemma rstrip_with_spec p l :
  ∃ ws, l = rstrip_with p l ++ ws ∧ Forall (λ a, p a = true) ws
        ∧ (rstrip_with p l = []
           ∨ ∃ l' a, rstrip_with p l = l' ++ [a] ∧ p a = false).
Proof.
  unfold rstrip_with.
  destruct (lstrip_with_spec p (reverse l)) as (ws & Hl & Hws & Hhd).
  exists (reverse ws). split; [|split].
  - rewrite <- reverse_app, <- Hl. by rewrite reverse_involutive.
  - by apply Forall_reverse.
  - destruct Hhd as [->|(a & l' & -> & Hp)]; [by left|right].
    exists (reverse l'), a. by rewrite reverse_cons.
Qed.

Lemma rstrip_with_id p l :
  (l = [] ∨ ∃ l' a, l = l' ++ [a] ∧ p a = false) → rstrip_with p l = l.
Proof.
  unfold rstrip_with. intros [->|(l' & a & -> & Hp)]; [done|].
  rewrite reverse_app. simpl. rewrite Hp.
  by rewrite reverse_cons, reverse_involutive.
Qed.

(** The two ends of a stripped string. *)
Lemma strip_ends s :
  let l := to_list (strip s) in
  (l = [] ∨ ∃ a l', l = a :: l' ∧ isspace a = false)
  ∧ (l = [] ∨ ∃ l' a, l = l' ++ [a] ∧ isspace a = false).
Proof.
  unfold strip. rewrite to_of_list.
  destruct (lstrip_with_spec isspace (to_list s)) as (ws1 & _ & _ & Hhd).
  destruct (rstrip_with_spec isspace (lstrip_with isspace (to_list s)))
    as (ws2 & Hl & _ & Hlast).
  split; [|done].
  destruct (rstrip_with isspace _) as [|b mid]; [by left|right].
  exists b, mid. split; [done|].
  destruct Hhd as [Hnil|(a & l' & Heq & Hp)].
  - rewrite Hnil in Hl. done.
  - rewrite Heq in Hl. by injection Hl as -> _.
Qed.

Lemma strip_id s :
  (to_list s = [] ∨ ∃ a l', to_list s = a :: l' ∧ isspace a = false) →
  (to_list s = [] ∨ ∃ l' a, to_list s = l' ++ [a] ∧ isspace a = false) →
  strip s = s.
Proof.
  intros Hhd Hlast. unfold strip.
  rewrite (lstrip_with_id _ _ Hhd), (rstrip_with_id _ _ Hlast).
  apply of_to_list.
Qed.

Lemma strip_idempotent s : strip (strip s) = strip s.
Proof. destruct (strip_ends s). by apply strip_id. Qed.

End StrFacts.

(** ** The records the extractor builds *)

Section Records.
Import Re ReFacts StrFacts.



End Records.

Section RecordsOfRun.
Variable json_load : string → result pyval.
Variable json_dump : pyval → string.
Variable csv_DictReader : string → list (list (string * pyval)) * option exn.
Variable csv_writerow : list string → string.
Variable format_value : pyval → string.
Variable FILE_VIEW : trace → Z → Z → string → string → result string.

(** A property of the candidates of a document holds of every record the
    loops add. *)
Lemma new_creds_extract_line (P : cred → Prop) target lk st line :
  (∀ c, candidate target (name_or_unknown lk) line = Some c → P c) →
  Forall P (new_creds st) →
  Forall P (new_creds (extract_line target lk st line)).
Proof.
  intros Hc Hst.
  pose proof (extract_line_candidate target lk st line) as Heq.
  simpl in Heq.
  destruct (candidate target (name_or_unknown lk) line) as [c|].
  - destruct (decide _); injection Heq as _ ->; [done|].
    apply Forall_app. split; [done|]. constructor; [|done]. by apply Hc.
  - by injection Heq as _ ->.
Qed.

Lemma new_creds_extract_lines (P : cred → Prop) target lk lines :
  (∀ line c, line ∈ lines →
             candidate target (name_or_unknown lk) line = Some c → P c) →
  ∀ st, Forall P (new_creds st) →
        Forall P (new_creds (foldl (extract_line target lk) st lines)).
Proof.
  induction lines as [|line lines IH]; intros Hc st Hst; [done|].
  simpl. apply IH.
  - intros line' c Hin. apply Hc. by right.
  - apply new_creds_extract_line; [|done].
    intros c. apply Hc. by left.
Qed.

Lemma new_creds_process_leak (P : cred → Prop) target n st i lk :
  (∀ nm contents line c,
     name lk = Some nm → line ∈ Str.split "010" contents →
     candidate target nm line = Some c → P c) →
  Forall P (new_creds st) →
  Forall P (new_creds (process_leak FILE_VIEW target n st i lk)).
Proof.
  intros Hc Hst. unfold process_leak.
  destruct (name lk) as [nm|] eqn:Hnm; simpl; [|done].
  destruct (file_view_with_retry _ _ _ _) as [[contents|e] tr]; simpl;
    [|done].
  assert (Forall P (new_creds
            (foldl (extract_line target lk)
               (with_log (say st DEBUG (Processing_leak (i + 1) n nm)) tr)
               (Str.split "010" contents)))) as H.
  { apply new_creds_extract_lines; [|done].
    intros line c Hin. unfold name_or_unknown. rewrite Hnm.
    by apply (Hc nm contents). }
  by destruct (decide _).
Qed.

Lemma new_creds_process_leaks (P : cred → Prop) target n leaks :
  (∀ lk nm contents line c,
     lk ∈ leaks → name lk = Some nm →
     line ∈ Str.split "010" contents →
     candidate target nm line = Some c → P c) →
  ∀ i st, Forall P (new_creds st) →
          Forall P (new_creds (process_leaks FILE_VIEW target n i leaks st)).
Proof.
  induction leaks as [|lk leaks IH]; intros Hc i st Hst; [done|].
  simpl. apply IH.
  - intros lk' nm contents line c Hin. apply Hc. by right.
  - apply new_creds_process_leak; [|done].
    intros nm contents line c. apply Hc. by left.
Qed.


End RecordsOfRun.

(** ** Every outcome of FILE_VIEW with retries *)

Section RetryOutcome.
Variable FILE_VIEW : trace → Z → Z → string → string → result string.

Lemma count_calls_app tr1 tr2 :
  count_calls (tr1 ++ tr2) = count_calls tr1 + count_calls tr2.
Proof. unfold count_calls. by rewrite filter_app, length_app. Qed.

Lemma count_warnings_app tr1 tr2 :
  count_warnings (tr1 ++ tr2) = count_warnings tr1 + count_warnings tr2.
Proof. unfold count_warnings. by rewrite filter_app, length_app. Qed.

Lemma retry_loop_outcome lk t m sid b max_retries :
  type_ lk = Some t → media lk = Some m → storageid lk = Some sid →
  bucket lk = Some b →
  ∀ remaining delay tr,
    1 ≤ remaining ≤ max_retries →
    ∃ r k suffix,
      retry_loop FILE_VIEW lk max_retries remaining delay tr
      = (r, tr ++ suffix)
      ∧ 1 ≤ k ≤ remaining
      ∧ count_calls suffix = k
      ∧ count_warnings suffix = k - 1
      ∧ sleeps suffix = map inject_Z (backoff delay (k - 1))
      ∧ last suffix = Some (Call_FILE_VIEW t m sid b r)
      ∧ (k < remaining → ∃ contents, r = Ok contents).
Proof.
  intros Ht Hm Hs Hb remaining.
  induction remaining as [|remaining IH]; intros delay tr Hrem; [lia|].
  simpl. unfold attempt_FILE_VIEW. rewrite Ht, Hm, Hs, Hb. simpl.
  destruct (FILE_VIEW tr t m sid b) as [contents|e] eqn:Hfv.
  - exists (Ok contents), 1, [Call_FILE_VIEW t m sid b (Ok contents)].
    repeat split; eauto; lia.
  - destruct (decide (max_retries - remaining = max_retries)) as [Heq|Hne].
    + assert (remaining = 0) as -> by lia.
      exists (Raise e), 1, [Call_FILE_VIEW t m sid b (Raise e)].
      repeat split; auto; lia.
    + destruct (IH (delay * 2)%Z
                  ((tr ++ [Call_FILE_VIEW t m sid b (Raise e)])
                   ++ [Log WARNING
                         (Retrying (max_retries - remaining) max_retries e
                            delay);
                       Sleep (inject_Z delay)]))
        as (r & k & suffix & Hloop & Hk & Hcalls & Hwarn & Hsleeps & Hlast
            & Hok); [lia|].
      rewrite Hloop.
      exists r, (S k),
        (Call_FILE_VIEW t m sid b (Raise e)
         :: Log WARNING
              (Retrying (max_retries - remaining) max_retries e delay)
         :: Sleep (inject_Z delay) :: suffix).
      split; [by rewrite <- !app_assoc|].
      split; [lia|]. split; [|split; [|split; [|split]]].
      * change (S (count_calls suffix) = S k). by rewrite Hcalls.
      * change (S (count_warnings suffix) = S k - 1). rewrite Hwarn. lia.
      * simpl. rewrite Hsleeps, Nat.sub_0_r.
        destruct k as [|k']; [lia|]. simpl. by rewrite Nat.sub_0_r.
      * destruct suffix; [done|]. done.
      * intros Hlt. apply Hok. lia.
Qed.

(** X5: whatever the service answers, [file_view_with_retry] makes between
    one and [max_retries] calls, returns what the last call gave, sleeps
    [RETRY_DELAY], twice that, ... between two calls and never after the
    last, logs one warning per retry, and gives up (raises) only after
    [max_retries] calls. *)
Theorem file_view_with_retry_outcome lk t m sid b max_retries tr :
  1 ≤ max_retries →
  type_ lk = Some t → media lk = Some m → storageid lk = Some sid →
  bucket lk = Some b →
  ∃ r k suffix,
    file_view_with_retry FILE_VIEW lk max_retries tr = (r, tr ++ suffix)
    ∧ 1 ≤ k ≤ max_retries
    ∧ count_calls suffix = k
    ∧ count_warnings suffix = k - 1
    ∧ sleeps suffix = map inject_Z (backoff RETRY_DELAY (k - 1))
    ∧ last suffix = Some (Call_FILE_VIEW t m sid b r)
    ∧ (k < max_retries → ∃ contents, r = Ok contents).
Proof.
  intros Hmax Ht Hm Hs Hb.
  apply (retry_loop_outcome lk t m sid b max_retries Ht Hm Hs Hb). lia.
Qed.

Lemma attempt_missing_key lk key tr :
  missing_key lk = Some key →
  attempt_FILE_VIEW FILE_VIEW lk tr = (Raise (KeyError key), tr).
Proof.
  unfold missing_key, attempt_FILE_VIEW.
  destruct (type_ lk), (media lk), (storageid lk), (bucket lk); simpl;
    by intros [= <-].
Qed.

Lemma retry_loop_missing_key lk key max_retries :
  missing_key lk = Some key →
  ∀ remaining delay tr,
    1 ≤ remaining ≤ max_retries →
    ∃ suffix,
      retry_loop FILE_VIEW lk max_retries remaining delay tr
      = (Raise (KeyError key), tr ++ suffix)
      ∧ count_calls suffix = 0
      ∧ sleeps suffix = map inject_Z (backoff delay (remaining - 1)).
Proof.
  intros Hkey remaining.
  induction remaining as [|remaining IH]; intros delay tr Hrem; [lia|].
  simpl. rewrite (attempt_missing_key lk key tr Hkey).
  destruct (decide (max_retries - remaining = max_retries)) as [Heq|Hne].
  - assert (remaining = 0) as -> by lia.
    exists []. by rewrite app_nil_r.
  - destruct (IH (delay * 2)%Z
                (tr ++ [Log WARNING
                          (Retrying (max_retries - remaining) max_retries
                             (KeyError key) delay);
                        Sleep (inject_Z delay)]))
      as (suffix & Hloop & Hcalls & Hsleeps); [lia|].
    rewrite Hloop.
    exists (Log WARNING
              (Retrying (max_retries - remaining) max_retries
                 (KeyError key) delay)
            :: Sleep (inject_Z delay) :: suffix).
    split; [by rewrite <- !app_assoc|]. split; [done|].
    simpl. rewrite Hsleeps, Nat.sub_0_r.
    destruct remaining as [|r']; [lia|]. simpl. by rewrite Nat.sub_0_r.
Qed.

(** X6: for a record that lacks one of the four keys of the call, every
    attempt raises [KeyError] before the service is called; the loop still
    waits the whole backoff sequence and then raises that [KeyError]. *)
Theorem file_view_with_retry_missing_key lk key max_retries tr :
  1 ≤ max_retries →
  missing_key lk = Some key →
  ∃ suffix,
    file_view_with_retry FILE_VIEW lk max_retries tr
    = (Raise (KeyError key), tr ++ suffix)
    ∧ count_calls suffix = 0
    ∧ sleeps suffix = map inject_Z (backoff RETRY_DELAY (max_retries - 1)).
Proof.
  intros Hmax Hkey.
  apply (retry_loop_missing_key lk key max_retries Hkey). lia.
Qed.

(** Whatever happens, the loop only adds to the trace, and at most
    [remaining] calls. *)
Lemma retry_loop_calls lk max_retries :
  ∀ remaining delay tr,
    ∃ suffix,
      (retry_loop FILE_VIEW lk max_retries remaining delay tr).2
      = tr ++ suffix
      ∧ count_calls suffix ≤ remaining.
Proof.
  induction remaining as [|remaining IH]; intros delay tr; simpl.
  - exists []. by rewrite app_nil_r.
  - assert (∃ r suf, attempt_FILE_VIEW FILE_VIEW lk tr = (r, tr ++ suf)
                     ∧ count_calls suf ≤ 1) as (r & suf & Hat & Hsuf).
    { unfold attempt_FILE_VIEW.
      destruct (type_ lk), (media lk), (storageid lk), (bucket lk); simpl.
      all: first
        [ eexists _, [_]; split; [reflexivity|];
          unfold count_calls; simpl; lia
        | eexists _, []; rewrite app_nil_r; split; [reflexivity|];
          unfold count_calls; simpl; lia ]. }
    rewrite Hat. destruct r as [contents|e]; simpl.
    + exists suf. split; [done|lia].
    + destruct (decide _); simpl.
      * exists suf. split; [done|lia].
      * destruct (IH (delay * 2)%Z
                    ((tr ++ suf)
                     ++ [Log WARNING
                           (Retrying (max_retries - remaining) max_retries e
                              delay);
                         Sleep (inject_Z delay)]))
          as (suffix & Hloop & Hcalls).
        rewrite Hloop.
        exists (suf ++ [Log WARNING
                          (Retrying (max_retries - remaining) max_retries e
                             delay);
                        Sleep (inject_Z delay)] ++ suffix).
        split; [by rewrite <- !app_assoc|].
        rewrite !count_calls_app.
        change (count_calls [Log WARNING _; Sleep _]) with 0. lia.
Qed.

End RetryOutcome.

(** ** What the extraction never does *)

Section Monotone.
Variable json_load : string → result pyval.
Variable json_dump : pyval → string.
Variable csv_DictReader : string → list (list (string * pyval)) * option exn.
Variable csv_writerow : list string → string.
Variable format_value : pyval → string.
Variable FILE_VIEW : trace → Z → Z → string → string → result string.

Lemma grows_refl st : grows 0 st st.
Proof.
  split; [by repeat split|]. exists []. by rewrite app_nil_r.
Qed.

Lemma grows_trans a b st1 st2 st3 :
  grows a st1 st2 → grows b st2 st3 → grows (a + b) st1 st3.
Proof.
  intros [(Hl1 & Hn1 & Hs1) (s1 & He1 & Hc1)]
         [(Hl2 & Hn2 & Hs2) (s2 & He2 & Hc2)].
  split; [split; [|split]|].
  - by etrans.
  - by etrans.
  - by etrans.
  - exists (s1 ++ s2). rewrite He2, He1, <- app_assoc. split; [done|].
    rewrite count_calls_app. lia.
Qed.

Lemma grows_weaken a b st st' : grows a st st' → a ≤ b → grows b st st'.
Proof.
  intros [Hext (suffix & Heq & Hc)] Hab. split; [done|].
  exists suffix. split; [done|lia].
Qed.

Lemma grows_say st lv m : grows 0 st (say st lv m).
Proof.
  split; [split; [|split]|]; simpl; try done.
  - by apply prefix_app_r.
  - by exists [Log lv m].
Qed.

Lemma grows_extract_line target lk st line :
  grows 0 st (extract_line target lk st line).
Proof.
  unfold extract_line.
  destruct (Re.search (Re.escaped_ci target) line); [|apply grows_refl].
  destruct (Re.search CRED_PATTERN (Str.strip line)); [|apply grows_say].
  cbv zeta. destruct (decide _); [apply grows_say|].
  split; [split; [|split]|]; simpl.
  - by apply prefix_app_r.
  - by apply prefix_app_r.
  - apply union_subseteq_r.
  - by eexists [_].
Qed.

Lemma grows_extract_lines target lk lines :
  ∀ st, grows 0 st (foldl (extract_line target lk) st lines).
Proof.
  induction lines as [|line lines IH]; intros st; simpl.
  - apply grows_refl.
  - apply (grows_trans 0 0 _ _ _ (grows_extract_line target lk st line)).
    apply IH.
Qed.

Lemma grows_process_leak target n st i lk :
  grows MAX_RETRIES st (process_leak FILE_VIEW target n st i lk).
Proof.
  unfold process_leak.
  destruct (item (name lk) "name") as [nm|e]; simpl.
  2: { eapply grows_weaken; [apply grows_say|lia]. }
  set (st1 := say st DEBUG (Processing_leak (i + 1) n nm)).
  change (log st ++ [Log DEBUG (Processing_leak (i + 1) n nm)])
    with (log st1).
  destruct (retry_loop_calls FILE_VIEW lk MAX_RETRIES MAX_RETRIES
              RETRY_DELAY (log st1)) as (suffix & Htr & Hcalls).
  change (retry_loop FILE_VIEW lk MAX_RETRIES MAX_RETRIES RETRY_DELAY
            (log st1))
    with (file_view_with_retry FILE_VIEW lk MAX_RETRIES (log st1)) in Htr.
  destruct (file_view_with_retry FILE_VIEW lk MAX_RETRIES (log st1))
    as [r tr]. simpl in Htr. subst tr.
  assert (Hfetch : grows MAX_RETRIES st (with_log st1 (log st1 ++ suffix))).
  { split; [split; [|split]|]; simpl; try done.
    - rewrite <- app_assoc. by apply prefix_app_r.
    - exists ([Log DEBUG (Processing_leak (i + 1) n nm)] ++ suffix).
      rewrite <- app_assoc. split; [done|].
      rewrite count_calls_app. change (count_calls [Log _ _]) with 0. lia. }
  destruct r as [contents|e].
  - set (st2 := foldl _ _ _).
    assert (Hst2 : grows (MAX_RETRIES + 0) st st2).
    { apply (grows_trans _ _ _ _ _ Hfetch). apply grows_extract_lines. }
    rewrite Nat.add_0_r in Hst2.
    destruct (decide _); [|done].
    replace MAX_RETRIES with (MAX_RETRIES + 0) by lia.
    apply (grows_trans _ _ _ _ _ Hst2).
    split; [split; [|split]|]; simpl; try done.
    + by apply prefix_app_r.
    + by exists [Sleep REQUEST_DELAY].
  - replace MAX_RETRIES with (MAX_RETRIES + 0) by lia.
    apply (grows_trans _ _ _ _ _ Hfetch). apply grows_say.
Qed.

Lemma grows_process_leaks target n leaks :
  ∀ i st,
    grows (MAX_RETRIES * length leaks) st
      (process_leaks FILE_VIEW target n i leaks st).
Proof.
  induction leaks as [|lk leaks IH]; intros i st.
  - apply grows_refl.
  - cbn [process_leaks length].
    replace (MAX_RETRIES * S (length leaks))
      with (MAX_RETRIES + MAX_RETRIES * length leaks) by lia.
    eapply grows_trans; [apply grows_process_leak|apply IH].
Qed.

(** X7: the extraction only adds: what was logged stays in front of the
    log, the records found so far stay in front of [new_creds] in their
    order, and no key leaves [seen]. *)
Theorem extract_extends target results st :
  extends st (extract FILE_VIEW target results st).
Proof. apply grows_process_leaks. Qed.



End Monotone.

(** ** More on the aggregator *)

Section AggregatorMore.

(** The log aside, [add_record] depends on the results and the identifiers
    seen. *)
Lemma add_records_same l :
  ∀ s1 s2,
    all_results s1 = all_results s2 → seen_ids s1 = seen_ids s2 →
    all_results (foldl add_record s1 l) = all_results (foldl add_record s2 l)
    ∧ seen_ids (foldl add_record s1 l) = seen_ids (foldl add_record s2 l).
Proof.
  induction l as [|r l IH]; intros s1 s2 Ha Hs; [done|].
  simpl. apply IH; unfold add_record; rewrite Hs;
    destruct (truthy_sid r); try done;
    destruct (decide _); simpl; congruence.
Qed.

Lemma query_step_records st q :
  all_results (query_step st q)
  = all_results (foldl add_record st (records_in [q]))
  ∧ seen_ids (query_step st q)
    = seen_ids (foldl add_record st (records_in [q])).
Proof.
  destruct q as [[term bkt] [records|e]]; simpl; [|done].
  rewrite app_nil_r. by apply add_records_same.
Qed.

Lemma records_in_cons q responses :
  records_in (q :: responses) = records_in [q] ++ records_in responses.
Proof. unfold records_in. simpl. by rewrite app_nil_r. Qed.

(** The results and the identifiers seen depend on the records received
    only. *)
Lemma aggregate_records responses :
  ∀ st,
    all_results (foldl query_step st responses)
    = all_results (foldl add_record st (records_in responses))
    ∧ seen_ids (foldl query_step st responses)
      = seen_ids (foldl add_record st (records_in responses)).
Proof.
  induction responses as [|q responses IH]; intros st; [done|].
  rewrite records_in_cons, foldl_app. cbn [foldl].
  destruct (IH (query_step st q)) as [-> ->].
  destruct (query_step_records st q) as [Ha Hs].
  by apply add_records_same.
Qed.

(** X10: a query that fails changes nothing in the result: the list is
    the one the other queries give. *)
Theorem failed_query_isolated before term bkt e after :
  all_results (aggregate (before ++ (term, bkt, Raise e) :: after))
  = all_results (aggregate (before ++ after)).
Proof.
  unfold aggregate. simpl.
  destruct (aggregate_records (before ++ (term, bkt, Raise e) :: after)
              agg_init) as [-> _].
  destruct (aggregate_records (before ++ after) agg_init) as [-> _].
  do 2 f_equal. unfold records_in. rewrite !bind_app. by simpl.
Qed.

Lemma add_record_known st r :
  (∀ sid, storageid r = Some sid → sid ≠ "" → sid ∈ seen_ids st) →
  add_record st r = st.
Proof.
  intros Hr. unfold add_record.
  destruct (truthy_sid r) as [sid|] eqn:Hsid; [|done].
  apply truthy_sid_Some in Hsid as [Hs Hn].
  by rewrite decide_True by auto.
Qed.

Lemma add_records_known l st :
  (∀ r sid, r ∈ l → storageid r = Some sid → sid ≠ "" →
            sid ∈ seen_ids st) →
  foldl add_record st l = st.
Proof.
  induction l as [|r l IH]; intros Hl; [done|].
  simpl. rewrite add_record_known.
  - apply IH. intros r' sid Hin. apply Hl. by right.
  - intros sid. apply Hl. by left.
Qed.

Lemma add_records_prefix l :
  ∀ st, all_results st `prefix_of` all_results (foldl add_record st l).
Proof.
  induction l as [|r l IH]; intros st; [done|].
  simpl. etrans; [|apply IH].
  unfold add_record. destruct (truthy_sid r); [|done].
  destruct (decide _); [done|]. by apply prefix_app_r.
Qed.

(** X11: later answers never remove or move what earlier ones gave, and
    answers that bring the same documents again add nothing. *)
Theorem aggregate_later_queries responses more :
  all_results (aggregate responses)
    `prefix_of` all_results (aggregate (responses ++ more))
  ∧ all_results (aggregate (responses ++ responses))
    = all_results (aggregate responses).
Proof.
  unfold aggregate. simpl.
  destruct (aggregate_records (responses ++ more) agg_init) as [-> _].
  destruct (aggregate_records (responses ++ responses) agg_init) as [-> _].
  destruct (aggregate_records responses agg_init) as [-> _].
  unfold records_in. rewrite !bind_app, !foldl_app. split.
  - apply add_records_prefix.
  - f_equal. apply add_records_known.
    destruct (agg_inv_records (records_in responses) [] agg_init
                agg_inv_init) as [_ _ _ _ _ Hall].
    intros r sid Hin. by apply Hall.
Qed.

End AggregatorMore.

(** ** Writing in two steps *)

Section WriteTwice.
Variable json_load : string → result pyval.
Variable json_dump : pyval → string.
Variable csv_writerow : list string → string.

Lemma append_cons a s t : String a s +:+ t = String a (s +:+ t).
Proof. done. Qed.

Lemma append_assoc s t u : (s +:+ t) +:+ u = s +:+ t +:+ u.
Proof.
  induction s as [|a s IH]; [done|]. by rewrite !append_cons, IH.
Qed.

Lemma append_length s t :
  String.length (s +:+ t) = String.length s + String.length t.
Proof.
  induction s as [|a s IH]; [done|]. rewrite append_cons. simpl.
  by rewrite IH.
Qed.

Lemma concat_str_app l1 l2 :
  concat_str (l1 ++ l2) = concat_str l1 +:+ concat_str l2.
Proof.
  induction l1 as [|s l1 IH]; [done|].
  simpl. by rewrite IH, append_assoc.
Qed.

Lemma write_w_inv f s f1 :
  write_w f s = Ok f1 →
  write_error f = None
  ∧ f1 = {| file := Some s; read_error := read_error f;
            write_error := write_error f |}.
Proof.
  unfold write_w. destruct (write_error f); [done|]. by intros [= <-].
Qed.

Lemma write_a_twice f s f1 t :
  write_a f s = Ok f1 → write_a f1 t = write_a f (s +:+ t).
Proof.
  unfold write_a. intros [Hw ->]%write_w_inv.
  unfold write_w. simpl. rewrite Hw. by rewrite append_assoc.
Qed.

(** X12: in the txt and csv formats, writing [a] and then [b] leaves the
    file that writing [a ++ b] at once leaves; in particular the csv
    header is written once, in front of the first rows. *)
Theorem write_output_twice fmt_ f a b f1 :
  fmt_ ≠ Json →
  write_output json_load json_dump csv_writerow fmt_ f a = Ok f1 →
  write_output json_load json_dump csv_writerow fmt_ f1 b
  = write_output json_load json_dump csv_writerow fmt_ f (a ++ b).
Proof.
  intros Hfmt Hw. destruct fmt_; [|done|]; simpl in *.
  - rewrite map_app, concat_str_app. by apply write_a_twice.
  - rewrite map_app, concat_str_app, <- append_assoc.
    erewrite <- (write_a_twice f _ f1); [|exact Hw].
    f_equal.
    apply write_w_inv in Hw as [_ ->]. unfold exists_, getsize. simpl.
    destruct (bool_decide (0 < String.length _)) eqn:Hlen; [done|].
    apply bool_decide_eq_false in Hlen.
    rewrite !append_length in Hlen.
    destruct (bool_decide (is_Some (file f)) && _) eqn:Hold.
    + apply andb_true_iff in Hold as [_ Hold%bool_decide_eq_true].
      destruct (file f); simpl in *; lia.
    + destruct (csv_writerow FIELDNAMES); [done|simpl in Hlen; lia].
Qed.

End WriteTwice.

Lemma write_output_twice_witness :
  write_output Json.load Json.dump Csv.writerow Csv no_file [alice]
  = Ok (file_with
          (Csv.writerow FIELDNAMES +:+ Csv.writerow (csv_fields alice)))
  ∧ write_output Json.load Json.dump Csv.writerow Csv
      (file_with
         (Csv.writerow FIELDNAMES +:+ Csv.writerow (csv_fields alice)))
      [bob]
    = write_output Json.load Json.dump Csv.writerow Csv no_file [alice; bob].
Proof.
  split; [vm_compute; reflexivity|].
  apply (write_output_twice Json.load Json.dump Csv.writerow Csv no_file
           [alice] [bob]); [discriminate|vm_compute; reflexivity].
Defined.

(** ** The txt format, written and read again *)

Section TxtRoundTrip.
Import Re ReFacts StrFacts.
Variable json_load : string → result pyval.
Variable json_dump : pyval → string.
Variable csv_DictReader : string → list (list (string * pyval)) * option exn.
Variable csv_writerow : list string → string.
Variable format_value : pyval → string.

Lemma to_list_append s t :
  Str.to_list (s +:+ t) = Str.to_list s ++ Str.to_list t.
Proof.
  induction s as [|a s IH]; [done|].
  rewrite append_cons. simpl. by rewrite <- IH.
Qed.

Lemma of_list_app l1 l2 :
  Str.of_list (l1 ++ l2) = Str.of_list l1 +:+ Str.of_list l2.
Proof.
  induction l1 as [|a l1 IH]; [done|]. simpl. by rewrite IH.
Qed.

Lemma text_lines_go_line r rest :
  Forall (λ a, a ≠ "010"%char ∧ a ≠ "013"%char) r →
  ∀ cur,
    text_lines_go cur (r ++ "010"%char :: rest)
    = Str.of_list (reverse cur ++ r) :: text_lines_go [] rest.
Proof.
  induction 1 as [|a r [Hn Hr] _ IH]; intros cur; simpl.
  - by rewrite app_nil_r.
  - destruct (Ascii.eqb_spec a "010"); [done|].
    destruct (Ascii.eqb_spec a "013"); [done|].
    rewrite IH. by rewrite reverse_cons, <- app_assoc.
Qed.

Lemma text_lines_line s rest :
  one_line s → text_lines (s +:+ String "010" rest) = s :: text_lines rest.
Proof.
  intros Hs. unfold text_lines. rewrite to_list_append.
  change (Str.to_list (String "010" rest))
    with ("010"%char :: Str.to_list rest).
  rewrite (text_lines_go_line _ _ Hs). simpl. by rewrite of_to_list.
Qed.

Lemma text_lines_txt_of recs :
  Forall (λ c, one_line (raw c)) recs →
  text_lines (txt_of recs) = map raw recs.
Proof.
  induction 1 as [|c recs Hc _ IH]; [done|].
  change (txt_of (c :: recs))
    with ((raw c +:+ String "010" "") +:+ txt_of recs).
  rewrite append_assoc.
  change (String "010" "" +:+ txt_of recs) with (String "010" (txt_of recs)).
  rewrite (text_lines_line _ _ Hc). simpl. by rewrite IH.
Qed.

Lemma extracted_key c :
  extracted c →
  raw c ≠ ""
  ∧ ∃ m, search CRED_PATTERN (raw c) = Some m ∧ group 0 m = cred_key c.
Proof.
  intros [Hstrip (m & Hm & He & Hp)].
  apply CRED_PATTERN_search_inv in Hm as Hinv.
  destruct Hinv as (pre & em & pw & rest & Hl & _ & _ & _ & _ & _ & Hg1 & Hg2
                    & Hg0).
  split.
  - intros Heq. rewrite Heq in Hl. by destruct pre, em.
  - exists m. split; [done|].
    unfold cred_key, key_of. rewrite He, Hp, Hg0, Hg1, Hg2.
    by rewrite !of_list_app.
Qed.

Lemma load_line_extracted c s :
  extracted c → load_line s (raw c) = {[cred_key c]} ∪ s.
Proof.
  intros Hc. unfold load_line.
  destruct (extracted_key c Hc) as (Hne & m & Hm & Hg0).
  destruct Hc as [-> _]. rewrite decide_False by done.
  by rewrite Hm, Hg0.
Qed.

Lemma load_lines_extracted recs :
  Forall extracted recs →
  ∀ s, foldl load_line s (map raw recs)
       = list_to_set (map cred_key recs) ∪ s.
Proof.
  induction 1 as [|c recs Hc _ IH]; intros s; simpl.
  - clear. set_solver.
  - rewrite load_line_extracted by done. rewrite IH. clear. set_solver.
Qed.

(** Reloading the text of extracted records. *)
Lemma resume_load_txt_of recs :
  Forall extracted recs →
  Forall (λ c, one_line (raw c)) recs →
  seen (resume_load json_load csv_DictReader format_value Txt
          (file_with (txt_of recs)))
  = list_to_set (map cred_key recs).
Proof.
  intros Hex Hone. unfold resume_load. rewrite exists_file_with.
  unfold load_body. cbn [open_r file_with read_error file].
  rewrite (text_lines_txt_of recs Hone).
  rewrite (load_lines_extracted recs Hex). simpl. clear. set_solver.
Qed.

(** X13: records written to a new destination in the txt format are read
    back as exactly their dedup keys, provided no raw line holds a carriage
    return or a line feed (a file opened in text mode ends a line at
    either). *)
Theorem txt_round_trip recs :
  Forall extracted recs →
  Forall (λ c, one_line (raw c)) recs →
  write_output json_load json_dump csv_writerow Txt no_file recs
  = Ok (file_with (txt_of recs))
  ∧ seen (resume_load json_load csv_DictReader format_value Txt
            (file_with (txt_of recs)))
    = list_to_set (map cred_key recs).
Proof.
  intros Hex Hone. split; [done|]. by apply resume_load_txt_of.
Qed.

End TxtRoundTrip.

Lemma extracted_alice_bob : Forall extracted [alice; bob].
Proof.
  repeat constructor; try (vm_compute; reflexivity);
    eexists; (split; [vm_compute; reflexivity|]); split;
    vm_compute; reflexivity.
Qed.

Lemma one_line_alice_bob : Forall (λ c, one_line (raw c)) [alice; bob].
Proof.
  repeat constructor; unfold one_line; simpl;
    repeat constructor; discriminate.
Qed.

Lemma txt_round_trip_witness :
  write_output Json.load Json.dump Csv.writerow Txt no_file [alice; bob]
  = Ok (file_with (txt_of [alice; bob]))
  ∧ seen (resume_load Json.load Csv.DictReader str_value Txt
            (file_with (txt_of [alice; bob])))
    = list_to_set (map cred_key [alice; bob]).
Proof.
  apply (txt_round_trip Json.load Json.dump Csv.DictReader Csv.writerow
           str_value [alice; bob]).
  - exact extracted_alice_bob.
  - exact one_line_alice_bob.
Defined.

(** With a carriage return in the password the key is not read back: the
    line is read as two. *)
Example carriage_return_splits_the_line :
  let line := "carol@corp.example:pw" +:+ String "013" "tail" in
  let c := {| url := ""; email := "carol@corp.example";
              password := "pw" +:+ String "013" "tail";
              source := "c.txt"; raw := line |} in
  candidate "corp.example" "c.txt" line = Some c
  ∧ elements (seen (resume_load Json.load Csv.DictReader str_value Txt
                      (file_with (txt_of [c]))))
    = ["carol@corp.example:pw"; "tail"].
Proof. vm_compute. split; reflexivity. Qed.

(** ** A second run over the same answers *)

Section SecondRun.
Import Re ReFacts StrFacts.
Variable json_load : string → result pyval.
Variable json_dump : pyval → string.
Variable csv_DictReader : string → list (list (string * pyval)) * option exn.
Variable csv_writerow : list string → string.
Variable format_value : pyval → string.

(** A service whose answers do not depend on what happened before. *)
Variable api : Z → Z → string → string → result string.

Lemma retry_loop_result lk max_retries :
  ∀ remaining delay delay' tr tr',
    (retry_loop (λ _, api) lk max_retries remaining delay tr).1
    = (retry_loop (λ _, api) lk max_retries remaining delay' tr').1.
Proof.
  induction remaining as [|remaining IH]; intros delay delay' tr tr'; simpl;
    [done|].
  unfold attempt_FILE_VIEW.
  destruct (type_ lk), (media lk), (storageid lk), (bucket lk); simpl.
  all: try (destruct (decide _); [done|apply IH]).
  destruct (api _ _ _ _); [done|].
  destruct (decide _); [done|apply IH].
Qed.

Lemma candidates_of_leak_indep target n n' st st' i i' lk :
  candidates_of_leak (λ _, api) target n st i lk
  = candidates_of_leak (λ _, api) target n' st' i' lk.
Proof.
  unfold candidates_of_leak.
  destruct (item (name lk) "name") as [a|]; [|done].
  unfold file_view_with_retry.
  pose proof (retry_loop_result lk MAX_RETRIES MAX_RETRIES RETRY_DELAY
                RETRY_DELAY
                (log (say st DEBUG (Processing_leak (i + 1) n a)))
                (log (say st' DEBUG (Processing_leak (i' + 1) n' a)))) as H.
  destruct (retry_loop _ _ _ _ _ (log (say st _ _))) as [r1 t1].
  destruct (retry_loop _ _ _ _ _ (log (say st' _ _))) as [r2 t2].
  simpl in H. by subst r2.
Qed.

Lemma candidates_of_run_indep target leaks :
  ∀ n n' i i' st st',
    candidates_of_run (λ _, api) target n i leaks st
    = candidates_of_run (λ _, api) target n' i' leaks st'.
Proof.
  induction leaks as [|lk leaks IH]; intros n n' i i' st st'; simpl; [done|].
  f_equal; [apply candidates_of_leak_indep|apply IH].
Qed.

(** If the second run starts with every key the first one ended with, it
    retains nothing. *)
Lemma second_run_nothing_new target results st0 st0' :
  new_creds st0 = [] →
  seen (extract (λ _, api) target results st0) ⊆ seen st0' →
  new_creds st0' = [] →
  new_creds (extract (λ _, api) target results st0') = [].
Proof.
  intros Hnew0 Hsub Hnew0'. unfold extract in *.
  pose proof (dedup_inv_process_leaks (λ _, api) (seen st0) target
                (length results) results 0 [] st0) as H1.
  pose proof (dedup_inv_process_leaks (λ _, api) (seen st0') target
                (length results) results 0 [] st0') as H2.
  simpl in H1, H2.
  destruct H1 as [_ _ Hmet1]; [rewrite Hnew0; apply dedup_inv_init|].
  destruct H2 as [[_ Hfresh Horder _] _ _];
    [rewrite Hnew0'; apply dedup_inv_init|].
  destruct (new_creds (process_leaks _ target _ 0 results st0'))
    as [|c new] eqn:Hnew; [done|].
  exfalso. apply (Hfresh c); [by left|].
  apply Hsub, Hmet1.
  rewrite (candidates_of_run_indep target results (length results)
             (length results) 0 0 st0 st0').
  eapply elem_of_sublist; [|exact Horder]. by left.
Qed.

Lemma first_run_fresh fmt_ target results :
  let st := extract (λ _, api) target results
              (resume_load json_load csv_DictReader format_value fmt_
                 no_file) in
  seen st = list_to_set (map cred_key (new_creds st)).
Proof.
  intros st. subst st.
  pose proof (dedup_inv_process_leaks (λ _, api) ∅ target
                (length results) results 0 [] empty_state
                (dedup_inv_init ∅)) as [_ Hseen _].
  apply set_eq. intros k. rewrite elem_of_list_to_set.
  change (resume_load json_load csv_DictReader format_value fmt_ no_file)
    with empty_state.
  rewrite (Hseen k). clear. set_solver.
Qed.

Lemma split_go_no_sep sep l :
  ∀ cur, sep ∉ cur →
    Forall (λ s, sep ∉ Str.to_list s) (Str.split_go sep cur l).
Proof.
  induction l as [|a l IH]; intros cur Hcur; simpl.
  - constructor; [|done]. rewrite to_of_list. by rewrite elem_of_reverse.
  - destruct (Ascii.eqb_spec a sep) as [->|Hne].
    + constructor; [|apply IH; apply not_elem_of_nil].
      rewrite to_of_list. by rewrite elem_of_reverse.
    + apply IH. by intros [->|?]%elem_of_cons.
Qed.

Lemma strip_Forall (P : ascii → Prop) s :
  Forall P (Str.to_list s) → Forall P (Str.to_list (Str.strip s)).
Proof.
  intros Hs. unfold Str.strip. rewrite to_of_list.
  destruct (lstrip_with_spec Str.isspace (Str.to_list s)) as (ws1 & Hl1 & _).
  destruct (rstrip_with_spec Str.isspace
              (Str.lstrip_with Str.isspace (Str.to_list s)))
    as (ws2 & Hl2 & _).
  rewrite Hl1, Hl2 in Hs.
  by apply Forall_app in Hs as [_ [Hs _]%Forall_app].
Qed.

(** What the extractor builds from a line of a document. *)
Lemma candidate_extracted target src contents line c :
  line ∈ Str.split "010" contents →
  candidate target src line = Some c →
  extracted c ∧ "010"%char ∉ Str.to_list (raw c).
Proof.
  intros Hin Hc. unfold candidate in Hc.
  destruct (search (escaped_ci target) line) as [mt|]; [|done].
  destruct (search CRED_PATTERN (Str.strip line)) as [cm|] eqn:Hm; [|done].
  injection Hc as <-. split.
  - split; [apply strip_idempotent|]. by exists cm.
  - simpl.
    pose proof (split_go_no_sep "010"%char (Str.to_list contents) []
                  (not_elem_of_nil _)) as Hall.
    rewrite Forall_forall in Hall. specialize (Hall line Hin).
    assert (Forall (λ a, a ≠ "010"%char) (Str.to_list line)) as Hline.
    { apply Forall_forall. by intros a Ha ->. }
    apply (strip_Forall _ line) in Hline.
    rewrite Forall_forall in Hline. intros Hbad. by apply (Hline _ Hbad).
Qed.

Lemma first_run_records target results st :
  Forall (λ c, extracted c ∧ "010"%char ∉ Str.to_list (raw c))
    (new_creds st) →
  Forall (λ c, extracted c ∧ "010"%char ∉ Str.to_list (raw c))
    (new_creds (extract (λ _, api) target results st)).
Proof.
  intros Hst. unfold extract. apply new_creds_process_leaks; [|done].
  intros lk nm contents line c _ _. apply candidate_extracted.
Qed.

Lemma finish_nothing fmt_ f st :
  new_creds st = [] →
  final_fs (finish json_load json_dump csv_writerow fmt_ f st) = f
  ∧ exit_status (finish json_load json_dump csv_writerow fmt_ f st) = 0%Z.
Proof. intros Hnew. unfold finish. by rewrite Hnew. Qed.

(** X14: json format, new destination, a service that gives the same
    answers: if the document that the first run writes is read back as
    written, the second run retains nothing, leaves the file as the first
    left it and ends with status zero. *)
Theorem second_run_json target results :
  let o1 := main json_load json_dump csv_DictReader csv_writerow
              format_value (λ _, api) Json target results no_file in
  json_load (json_dump (records_doc (new_creds (final o1))))
  = Ok (records_doc (new_creds (final o1))) →
  let o2 := main json_load json_dump csv_DictReader csv_writerow
              format_value (λ _, api) Json target results (final_fs o1) in
  new_creds (final o2) = [] ∧ final_fs o2 = final_fs o1
  ∧ exit_status o2 = 0%Z.
Proof.
  intros o1 Hrt o2. subst o1 o2. unfold main in *.
  rewrite finish_new_creds in *.
  pose proof (first_run_fresh Json target results) as Hseen.
  pose proof (first_run_records target results
                (resume_load json_load csv_DictReader format_value Json
                   no_file) (Forall_nil_2 _)) as Hrun.
  cbv zeta in Hseen.
  set (st0 := resume_load json_load csv_DictReader format_value Json no_file)
    in *.
  remember (extract (λ _, api) target results st0) as st1 eqn:Hst1.
  assert (Hnew2 :
    new_creds (extract (λ _, api) target results
                 (resume_load json_load csv_DictReader format_value Json
                    (final_fs (finish json_load json_dump csv_writerow
                                 Json no_file st1)))) = []).
  { apply (second_run_nothing_new target results st0); [done| |].
    - rewrite <- Hst1, Hseen. unfold finish.
      destruct (new_creds st1) as [|c new] eqn:Hnew.
      + simpl. clear. set_solver.
      + change (write_output json_load json_dump csv_writerow Json no_file
                  (c :: new))
          with (Ok (A := fs) (file_with (json_dump (records_doc (c :: new))))).
        cbn [final_fs].
        destruct (resume_load_records json_load json_dump csv_DictReader
                    format_value (c :: new) Hrt) as [-> _].
        done.
    - apply resume_load_new_creds. }
  split; [done|]. by apply finish_nothing.
Qed.

(** X15: the same in the txt format, when no retained line holds a
    carriage return. *)
Theorem second_run_txt target results :
  let o1 := main json_load json_dump csv_DictReader csv_writerow
              format_value (λ _, api) Txt target results no_file in
  Forall (λ c, "013"%char ∉ Str.to_list (raw c)) (new_creds (final o1)) →
  let o2 := main json_load json_dump csv_DictReader csv_writerow
              format_value (λ _, api) Txt target results (final_fs o1) in
  new_creds (final o2) = [] ∧ final_fs o2 = final_fs o1
  ∧ exit_status o2 = 0%Z.
Proof.
  intros o1 Hcr o2. subst o1 o2. unfold main in *.
  rewrite finish_new_creds in *.
  pose proof (first_run_fresh Txt target results) as Hseen.
  pose proof (first_run_records target results
                (resume_load json_load csv_DictReader format_value Txt
                   no_file) (Forall_nil_2 _)) as Hrun.
  cbv zeta in Hseen.
  set (st0 := resume_load json_load csv_DictReader format_value Txt no_file)
    in *.
  remember (extract (λ _, api) target results st0) as st1 eqn:Hst1.
  assert (Hrec : Forall (λ c, extracted c ∧ one_line (raw c))
                   (new_creds st1)).
  { rewrite Forall_forall in *.
    intros c Hc. destruct (Hrun c Hc) as [Hex Hlf]. split; [done|].
    apply Forall_forall. intros a Ha.
    split; intros ->; [done|]. by apply (Hcr c Hc). }
  assert (Hnew2 :
    new_creds (extract (λ _, api) target results
                 (resume_load json_load csv_DictReader format_value Txt
                    (final_fs (finish json_load json_dump csv_writerow
                                 Txt no_file st1)))) = []).
  { apply (second_run_nothing_new target results st0); [done| |].
    - rewrite <- Hst1, Hseen. unfold finish.
      destruct (new_creds st1) as [|c new] eqn:Hnew.
      + simpl. clear. set_solver.
      + change (write_output json_load json_dump csv_writerow Txt no_file
                  (c :: new))
          with (Ok (A := fs) (file_with (txt_of (c :: new)))).
        cbn [final_fs].
        rewrite (resume_load_txt_of json_load csv_DictReader format_value
                   (c :: new)); [done| |].
        * eapply Forall_impl; [exact Hrec|]. by intros ? [? ?].
        * eapply Forall_impl; [exact Hrec|]. by intros ? [? ?].
    - apply resume_load_new_creds. }
  split; [done|]. by apply finish_nothing.
Qed.

End SecondRun.

(** ** The csv format, written and read again *)

Section CsvRoundTrip.
Variable json_load : string → result pyval.
Variable json_dump : pyval → string.
Variable csv_DictReader : string → list (list (string * pyval)) * option exn.
Variable csv_writerow : list string → string.
Variable format_value : pyval → string.

Lemma load_rows_records recs :
  ∀ s : gset string,
    foldl (λ seen row, {[row_key format_value row]} ∪ seen) s
         (map csv_row_of recs)
       = list_to_set (map cred_key recs) ∪ s.
Proof.
  induction recs as [|c recs IH]; intros s; simpl.
  - clear. set_solver.
  - rewrite IH. change (row_key format_value (csv_row_of c)) with (cred_key c).
    clear. set_solver.
Qed.

(** X16: records written to a new destination in the csv format are the
    header row and one row per record; if the csv reader gives the rows
    back, reloading gives exactly the dedup keys of the records. *)
Theorem csv_round_trip recs :
  csv_DictReader (csv_of csv_writerow recs) = (map csv_row_of recs, None) →
  write_output json_load json_dump csv_writerow Csv no_file recs
  = Ok (file_with (csv_of csv_writerow recs))
  ∧ seen (resume_load json_load csv_DictReader format_value Csv
            (file_with (csv_of csv_writerow recs)))
    = list_to_set (map cred_key recs).
Proof.
  intros Hrt. split; [done|].
  unfold resume_load. rewrite exists_file_with.
  unfold load_body. cbn [open_r file_with read_error file].
  rewrite Hrt, load_rows_records. simpl. clear. set_solver.
Qed.

End CsvRoundTrip.

Lemma csv_round_trip_witness :
  Csv.DictReader (csv_of Csv.writerow [alice; bob])
  = (map csv_row_of [alice; bob], None)
  ∧ write_output Json.load Json.dump Csv.writerow Csv no_file [alice; bob]
    = Ok (file_with (csv_of Csv.writerow [alice; bob]))
  ∧ seen (resume_load Json.load Csv.DictReader str_value Csv
            (file_with (csv_of Csv.writerow [alice; bob])))
    = list_to_set (map cred_key [alice; bob]).
Proof.
  split; [vm_compute; reflexivity|].
  apply (csv_round_trip Json.load Json.dump Csv.DictReader Csv.writerow
           str_value [alice; bob]).
  vm_compute; reflexivity.
Defined.

(** ** Keys that are not credentials *)

Section Fallback.
Import Re ReFacts ReComplete StrFacts.

(** The dedup key of an extracted record matches the pattern. *)
Lemma cred_key_matches c :
  extracted c → is_Some (search CRED_PATTERN (cred_key c)).
Proof.
  intros [_ (m & Hm & He & Hp)].
  apply CRED_PATTERN_search_inv in Hm
    as (pre & em & pw & rest & _ & Hem & Hpw & Hlen & _ & _ & Hg1 & Hg2 & _).
  apply search_iff. exists [], (em ++ [":"%char] ++ pw), [].
  split.
  - unfold cred_key, key_of. rewrite He, Hp, Hg1, Hg2.
    rewrite !to_list_append, !to_of_list. simpl. by rewrite app_nil_r.
  - apply accepts_CRED_PATTERN. exists em, pw.
    repeat split; auto.
    + by apply (accepts_EMAIL_PART em (":"%char :: pw ++ rest)).
    + intros ->. simpl in Hlen. lia.
Qed.

(** X17: a line of a txt file that does not match the pattern is kept in
    the store as it is, and it never equals the key of an extracted
    record: such a line cannot make the run take a credential for known. *)
Theorem fallback_key_never_a_credential s line c :
  Str.strip line ≠ "" →
  search CRED_PATTERN (Str.strip line) = None →
  extracted c →
  load_line s line = {[Str.strip line]} ∪ s
  ∧ cred_key c ≠ Str.strip line.
Proof.
  intros Hne Hnone Hc. split.
  - unfold load_line. rewrite decide_False by done. by rewrite Hnone.
  - intros Heq. destruct (cred_key_matches c Hc) as [m Hm].
    rewrite Heq in Hm. congruence.
Qed.

End Fallback.

Lemma fallback_key_never_a_credential_witness :
  load_line ∅ "  legacy note, no credential  "
  = {["legacy note, no credential"]} ∪ ∅
  ∧ cred_key alice ≠ "legacy note, no credential".
Proof.
  apply (fallback_key_never_a_credential ∅
           "  legacy note, no credential  " alice).
  - vm_compute. discriminate.
  - vm_compute. reflexivity.
  - by apply (Forall_inv extracted_alice_bob).
Defined.

(** ** The total that a run reports *)

Section Total.
Variable json_load : string → result pyval.
Variable json_dump : pyval → string.
Variable csv_DictReader : string → list (list (string * pyval)) * option exn.
Variable csv_writerow : list string → string.
Variable format_value : pyval → string.
Variable FILE_VIEW : trace → Z → Z → string → string → result string.

Lemma size_keys (new : list cred) :
  NoDup (map cred_key new) →
  size (list_to_set (map cred_key new) : gset string) = length new.
Proof.
  intros Hnd. rewrite size_list_to_set by done. apply length_map.
Qed.

(** X18: a run that ends with status zero reports, as the total of unique
    credentials, the number of keys loaded from the existing output plus
    the number of new records. *)
Theorem total_unique_reported fmt_ target results f :
  let o := main json_load json_dump csv_DictReader csv_writerow format_value
             FILE_VIEW fmt_ target results f in
  exit_status o = 0%Z →
  last (log (final o))
  = Some (Log INFO
            (Total_unique
               (size (seen (resume_load json_load csv_DictReader
                              format_value fmt_ f))
                + length (new_creds (final o))))).
Proof.
  intros o. subst o. unfold main. rewrite finish_new_creds.
  set (st0 := resume_load _ _ _ _ _).
  pose proof (dedup_inv_process_leaks FILE_VIEW (seen st0) target
                (length results) results 0 [] st0) as Hinv.
  simpl in Hinv.
  destruct Hinv as [[Hnd Hfresh _ _] Hseen _].
  { subst st0. rewrite resume_load_new_creds. apply dedup_inv_init. }
  fold (extract FILE_VIEW target results st0) in *.
  set (st := extract FILE_VIEW target results st0) in *.
  assert (Hsize : size (seen st) = size (seen st0) + length (new_creds st)).
  { rewrite <- (size_keys _ Hnd), <- size_union.
    - f_equal. apply set_eq. intros k.
      rewrite elem_of_union, elem_of_list_to_set. apply Hseen.
    - intros k Hk [c [-> Hc]]%elem_of_list_to_set%list_elem_of_fmap.
      by apply (Hfresh c). }
  unfold finish. destruct (new_creds st) as [|c new] eqn:Hnew.
  - intros _. simpl. rewrite last_snoc. by rewrite Hsize.
  - destruct (write_output _ _ _ _ _ _); simpl; [|done].
    intros _. rewrite last_snoc. by rewrite Hsize.
Qed.

End Total.

Lemma total_unique_reported_witness :
  let o := run_main (serves (raw alice)) Txt "corp.example"
             [doc "s1" "a.txt"] (file_with (txt_of [bob])) in
  exit_status o = 0%Z
  ∧ last (log (final o)) = Some (Log INFO (Total_unique 2)).
Proof.
  intros o. subst o. unfold run_main. split; [vm_compute; reflexivity|].
  pose proof (total_unique_reported Json.load Json.dump Csv.DictReader
                Csv.writerow str_value (serves (raw alice)) Txt
                "corp.example" [doc "s1" "a.txt"] (file_with (txt_of [bob])))
    as H.
  cbv zeta in H. rewrite H; [|vm_compute; reflexivity].
  vm_compute. reflexivity.
Defined.


(** ** The default destination *)

Section OutputPath.
Import ReFacts.

Lemma to_list_inj s t : Str.to_list s = Str.to_list t → s = t.
Proof. intros H. by rewrite <- (of_to_list s), <- (of_to_list t), H. Qed.

Lemma suffix_format t1 t2 f1 f2 :
  t1 +:+ "-creds." +:+ format_name f1 = t2 +:+ "-creds." +:+ format_name f2 →
  t1 = t2 ∧ f1 = f2.
Proof.
  intros H. apply (f_equal Str.to_list) in H.
  rewrite !to_list_append in H.
  assert (f1 = f2) as ->.
  { apply (f_equal reverse) in H. rewrite !reverse_app in H.
    destruct f1, f2; try done; vm_compute in H; by injection H. }
  split; [|done].
  apply app_inv_tail in H. by apply to_list_inj.
Qed.

(** X19: without the option [-o], two runs write to the same file only if
    they have the same target and the same format; with it, the file is
    the given name under [out/], whatever the format. *)
Theorem output_path_default_injective t1 f1 t2 f2 o :
  (output_path None t1 f1 = output_path None t2 f2 → t1 = t2 ∧ f1 = f2)
  ∧ (o ≠ "" → output_path (Some o) t1 f1 = "out/" +:+ o)
  ∧ output_path (Some "") t1 f1 = output_path None t1 f1.
Proof.
  split; [|split].
  - unfold output_path. intros H. injection H as H.
    by apply suffix_format.
  - intros Ho. unfold output_path. by rewrite decide_False.
  - done.
Qed.

End OutputPath.

(** ** After a document that cannot be fetched *)

Section FailedDocument.
Variable FILE_VIEW : trace → Z → Z → string → string → result string.

(** X20: for a complete record whose every call fails, the loop body logs
    the error, retains nothing and sleeps for the two retry delays only:
    the rate-limit delay is not slept, whether or not the document is the
    last. *)
Theorem failed_document_step target n st i lk t m sid b :
  complete lk →
  type_ lk = Some t → media lk = Some m → storageid lk = Some sid →
  bucket lk = Some b →
  (∀ tr', ∃ e, FILE_VIEW tr' t m sid b = Raise e) →
  let st' := process_leak FILE_VIEW target n st i lk in
  seen st' = seen st ∧ new_creds st' = new_creds st
  ∧ sleeps (log st') = sleeps (log st) ++ [inject_Z 2; inject_Z 4]
  ∧ ∃ nm e, last (log st') = Some (Log ERROR (Error_processing nm e)).
Proof.
  intros ([nm Hnm] & _) Ht Hm Hs Hb Hfail. unfold process_leak.
  rewrite Hnm. simpl.
  destruct (retry_loop_exhausted FILE_VIEW lk t m sid b MAX_RETRIES
              Ht Hm Hs Hb Hfail MAX_RETRIES RETRY_DELAY
              (log st ++ [Log DEBUG (Processing_leak (i + 1) n nm)]))
    as (e & suffix & Hloop & _ & Hsleeps & _); [unfold MAX_RETRIES; lia|].
  change (retry_loop FILE_VIEW lk MAX_RETRIES MAX_RETRIES RETRY_DELAY)
    with (file_view_with_retry FILE_VIEW lk MAX_RETRIES) in Hloop.
  rewrite Hloop. simpl. repeat split.
  - rewrite !sleeps_app, Hsleeps. simpl. by rewrite !app_nil_r.
  - exists (name_or_unknown lk), e. by rewrite last_snoc.
Qed.

End FailedDocument.

Lemma failed_document_step_witness :
  let st' := process_leak unavailable "corp.example" 2 empty_state 0
               (doc "s1" "a.txt") in
  seen st' = seen empty_state ∧ new_creds st' = new_creds empty_state
  ∧ sleeps (log st') = sleeps (log empty_state) ++ [inject_Z 2; inject_Z 4]
  ∧ ∃ nm e, last (log st') = Some (Log ERROR (Error_processing nm e)).
Proof.
  apply (failed_document_step unavailable "corp.example" 2 empty_state 0
           (doc "s1" "a.txt") 0 24 "s1" "leaks.public"); try reflexivity.
  - repeat split; by eexists.
  - intros tr'. by exists (ApiError 500).
Defined.
(** ** Witnesses on concrete services *)

Lemma file_view_with_retry_outcome_witness :
  ∃ r k suffix,
    file_view_with_retry (serves "text") (doc "s1" "a.txt") MAX_RETRIES []
    = (r, [] ++ suffix)
    ∧ 1 ≤ k ≤ MAX_RETRIES
    ∧ count_calls suffix = k
    ∧ count_warnings suffix = k - 1
    ∧ sleeps suffix = map inject_Z (backoff RETRY_DELAY (k - 1))
    ∧ last suffix = Some (Call_FILE_VIEW 0 24 "s1" "leaks.public" r)
    ∧ (k < MAX_RETRIES → ∃ contents, r = Ok contents).
Proof.
  apply (file_view_with_retry_outcome (serves "text") (doc "s1" "a.txt")
           0 24 "s1" "leaks.public" MAX_RETRIES []); try reflexivity.
  unfold MAX_RETRIES. lia.
Defined.

Lemma file_view_with_retry_missing_key_witness :
  ∃ suffix,
    file_view_with_retry (serves "text") no_type MAX_RETRIES []
    = (Raise (KeyError "type"), [] ++ suffix)
    ∧ count_calls suffix = 0
    ∧ sleeps suffix = map inject_Z (backoff RETRY_DELAY (MAX_RETRIES - 1)).
Proof.
  apply (file_view_with_retry_missing_key (serves "text") no_type "type"
           MAX_RETRIES []); [unfold MAX_RETRIES; lia|reflexivity].
Defined.

Lemma second_run_json_witness :
  let o1 := main Json.load Json.dump Csv.DictReader Csv.writerow str_value
              (λ _, same_answer) Json "corp.example" [doc "s1" "a.txt"]
              no_file in
  let o2 := main Json.load Json.dump Csv.DictReader Csv.writerow str_value
              (λ _, same_answer) Json "corp.example" [doc "s1" "a.txt"]
              (final_fs o1) in
  new_creds (final o1) = [alice]
  ∧ new_creds (final o2) = [] ∧ final_fs o2 = final_fs o1
  ∧ exit_status o2 = 0%Z.
Proof.
  intros o1 o2. split; [vm_compute; reflexivity|].
  apply (second_run_json Json.load Json.dump Csv.DictReader Csv.writerow
           str_value same_answer "corp.example" [doc "s1" "a.txt"]).
  vm_compute; reflexivity.
Defined.

Lemma second_run_txt_witness :
  let o1 := main Json.load Json.dump Csv.DictReader Csv.writerow str_value
              (λ _, same_answer) Txt "corp.example" [doc "s1" "a.txt"]
              no_file in
  let o2 := main Json.load Json.dump Csv.DictReader Csv.writerow str_value
              (λ _, same_answer) Txt "corp.example" [doc "s1" "a.txt"]
              (final_fs o1) in
  new_creds (final o1) = [alice]
  ∧ new_creds (final o2) = [] ∧ final_fs o2 = final_fs o1
  ∧ exit_status o2 = 0%Z.
Proof.
  intros o1 o2.
  assert (Hnew : new_creds (final o1) = [alice]) by (vm_compute; reflexivity).
  split; [exact Hnew|].
  apply (second_run_txt Json.load Json.dump Csv.DictReader Csv.writerow
           str_value same_answer "corp.example" [doc "s1" "a.txt"]).
  fold o1. rewrite Hnew. constructor; [|constructor].
  apply (bool_decide_unpack _). vm_compute. exact I.
Defined.

(** ** Rate limit and merge over whole runs *)

(** X21: when every document of a run is complete and every call
    succeeds, the run sleeps [REQUEST_DELAY] exactly once between two
    consecutive documents and not after the last. *)
Theorem fetched_documents_delay
    (FILE_VIEW : trace → Z → Z → string → string → result string)
    target results st :
  Forall complete results →
  (∀ tr' t m sid b, ∃ contents, FILE_VIEW tr' t m sid b = Ok contents) →
  sleeps (log (extract FILE_VIEW target results st))
  = sleeps (log st) ++ replicate (length results - 1) REQUEST_DELAY.
Proof. apply delay_between_fetched. Qed.

Lemma fetched_documents_delay_witness :
  sleeps (log (extract (serves "text") "corp.example"
                 [doc "s1" "a.txt"; doc "s2" "b.txt"; doc "s3" "c.txt"]
                 empty_state))
  = sleeps (log empty_state) ++ replicate 2 REQUEST_DELAY.
Proof.
  apply (fetched_documents_delay (serves "text") "corp.example"
           [doc "s1" "a.txt"; doc "s2" "b.txt"; doc "s3" "c.txt"]
           empty_state).
  - repeat constructor; by eexists.
  - intros. by eexists.
Defined.

(** X22: in the json format, writing new records to a destination that
    already holds records leaves the old records followed by the new ones;
    if both documents are read back as written, reloading gives the keys
    of all of them. *)
Theorem json_merge_round_trip
    (json_load : string → result pyval) (json_dump : pyval → string)
    (csv_DictReader : string → list (list (string * pyval)) * option exn)
    (csv_writerow : list string → string) (format_value : pyval → string)
    old new :
  json_load (json_dump (records_doc old)) = Ok (records_doc old) →
  json_load (json_dump (records_doc (old ++ new)))
  = Ok (records_doc (old ++ new)) →
  write_output json_load json_dump csv_writerow Json
    (file_with (json_dump (records_doc old))) new
  = Ok (file_with (json_dump (records_doc (old ++ new))))
  ∧ seen (resume_load json_load csv_DictReader format_value Json
            (file_with (json_dump (records_doc (old ++ new)))))
    = list_to_set (map cred_key (old ++ new)).
Proof. apply json_round_trip_merge. Qed.

Lemma json_merge_round_trip_witness :
  Json.load (Json.dump (records_doc [bob])) = Ok (records_doc [bob])
  ∧ Json.load (Json.dump (records_doc ([bob] ++ [alice])))
    = Ok (records_doc ([bob] ++ [alice]))
  ∧ write_output Json.load Json.dump Csv.writerow Json
      (file_with (Json.dump (records_doc [bob]))) [alice]
    = Ok (file_with (Json.dump (records_doc ([bob] ++ [alice]))))
  ∧ seen (resume_load Json.load Csv.DictReader str_value Json
            (file_with (Json.dump (records_doc ([bob] ++ [alice])))))
    = list_to_set (map cred_key ([bob] ++ [alice])).
Proof.
  split; [vm_compute; reflexivity|]. split; [vm_compute; reflexivity|].
  apply (json_merge_round_trip Json.load Json.dump Csv.DictReader
           Csv.writerow str_value [bob] [alice]); vm_compute; reflexivity.
Defined.
